(** * Collaborative sequence: history buffer, op transformation and
    delta-queue flow control

  A shallow embedding of
  - [packages/loader/container-loader/src/deltaManagerProxy.ts]
    (class [DeltaQueueProxy]), and
  - [packages/runtime/sequence/src/sequence.ts]
    (class [SharedSegmentSequence]),
  together with the properties the design document states about them. *)

From stdpp Require Import base list sorting strings gmap.

Set Warnings "-register-all".
Local Open Scope Z_scope.

(* ===================================================================== *)
(** * DeltaQueueProxy                                                     *)
(* ===================================================================== *)

Module DeltaQueueProxy.

(** Calls the proxy makes on the wrapped [IDeltaQueue]. *)
Inductive QueueCall := QPause | QResume.

#[global] Instance QueueCall_eq_dec : EqDecision QueueCall.
Proof. solve_decision. Defined.

(** The two private flags of the class; both start out [false]. *)
Record t := mk { systemPaused : bool; localPaused : bool }.

Definition new : t := {| systemPaused := false; localPaused := false |}.

(** Every method returns the updated proxy and the calls it made on
    the wrapped queue, in order.  The methods are [async] but contain
    no [await]: their bodies run to completion synchronously. *)
Definition updateResume (this : t) : t * list QueueCall :=
  if negb (systemPaused this) && negb (localPaused this)
  then (this, [QResume])
  else (this, []).

Definition systemPause (this : t) : t * list QueueCall :=
  let this := {| systemPaused := true; localPaused := localPaused this |} in
  (this, [QPause]).

Definition pause (this : t) : t * list QueueCall :=
  let this := {| systemPaused := systemPaused this; localPaused := true |} in
  (this, [QPause]).

Definition systemResume (this : t) : t * list QueueCall :=
  let this := {| systemPaused := false; localPaused := localPaused this |} in
  updateResume this.

Definition resume (this : t) : t * list QueueCall :=
  let this := {| systemPaused := systemPaused this; localPaused := false |} in
  updateResume this.

(** The four flow-control entry points, as a script of calls. *)
Inductive Call := SystemPause | Pause | SystemResume | Resume.

Definition step (this : t) (c : Call) : t * list QueueCall :=
  match c with
  | SystemPause => systemPause this
  | Pause => pause this
  | SystemResume => systemResume this
  | Resume => resume this
  end.

Fixpoint run (this : t) (cs : list Call) : t * list QueueCall :=
  match cs with
  | [] => (this, [])
  | c :: cs =>
      let '(this1, log1) := step this c in
      let '(this2, log2) := run this1 cs in
      (this2, log1 ++ log2)
  end.

(** Number of times the wrapped queue's [resume()] was invoked. *)
Definition resumes (log : list QueueCall) : nat :=
  length (filter (λ q, q = QResume) log).

Definition bothClear (this : t) : Prop :=
  systemPaused this = false ∧ localPaused this = false.

(** Number of times the wrapped queue's [pause()] was invoked. *)
Definition pauses (log : list QueueCall) : nat :=
  length (filter (λ q, q = QPause) log).

Definition isPauseRequest (c : Call) : bool :=
  match c with SystemPause | Pause => true | _ => false end.

Definition isResumeRequest (c : Call) : bool :=
  match c with SystemResume | Resume => true | _ => false end.

(** The last thing the wrapped queue was told agrees with the flags: it
    was [pause()] exactly when a pause is still held. *)
Definition agrees (this : t) (log : list QueueCall) : Prop :=
  (systemPaused this || localPaused this = true → last log = Some QPause)
  ∧ (systemPaused this || localPaused this = false → last log ≠ Some QPause).

End DeltaQueueProxy.

(* ===================================================================== *)
(** * SharedSegmentSequence                                               *)
(* ===================================================================== *)

Module Sequence.

(** ** Values, property sets and merge-tree ops *)

(** The JavaScript values that occur as property values, segment specs
    and thrown errors. *)
Inductive JsVal :=
| JUndefined
| JNull
| JBool (b : bool)
| JNum (n : Z)
| JStr (s : string)
| JObj (name : string).

#[global] Instance JsVal_eq_dec : EqDecision JsVal.
Proof. solve_decision. Defined.

(** JavaScript truthiness, as used by [if (error)] and [header ? .. : ..]. *)
Definition truthy (v : JsVal) : bool :=
  match v with
  | JUndefined | JNull => false
  | JBool b => b
  | JNum n => negb (n =? 0)
  | JStr s => negb (String.eqb s EmptyString)
  | JObj _ => true
  end.

(** [MergeTree.PropertySet]: a JS object used as a map from names to values. *)
Abbreviation PropertySet := (gmap string JsVal).

(** [Object.keys(o)]. *)
Definition Object_keys (o : PropertySet) : list string := (map_to_list o).*1.

Record ICombiningOp := { combiningOpName : string }.

(** [MergeTree.IMergeTreeOp], the tagged variant of the wire ops. *)
Inductive IMergeTreeOp :=
| Insert (pos1 : Z) (seg : JsVal)
| Remove (pos1 pos2 : Z)
| Annotate (pos1 pos2 : Z) (props : PropertySet) (combiningOp : option ICombiningOp)
| Group (ops : list IMergeTreeOp).

(** The op builders of the merge-tree package. *)
Definition createInsertOp (pos : Z) (segSpec : JsVal) : IMergeTreeOp :=
  Insert pos segSpec.
Definition createRemoveRangeOp (start end_ : Z) : IMergeTreeOp :=
  Remove start end_.
Definition createAnnotateRangeOp (start end_ : Z) (props : PropertySet)
    (combiningOp : option ICombiningOp) : IMergeTreeOp :=
  Annotate start end_ props combiningOp.
Definition createGroupOp (ops : list IMergeTreeOp) : IMergeTreeOp :=
  Group ops.

Inductive MergeTreeDeltaType := INSERT | REMOVE | ANNOTATE | GROUP.

#[global] Instance MergeTreeDeltaType_eq_dec : EqDecision MergeTreeDeltaType.
Proof. solve_decision. Defined.

(** [MergeTree.ISegment], restricted to what the sequence reads. *)
Record ISegment := {
  cachedLength : Z;
  properties : PropertySet;
  toJSONObject : JsVal
}.

(** One range of a [SequenceDeltaEvent]. *)
Record ISequenceDeltaRange := {
  position : Z;
  segment : ISegment;
  propertyDeltas : PropertySet
}.

Record SequenceDeltaEvent := {
  deltaOperation : MergeTreeDeltaType;
  ranges : list ISequenceDeltaRange
}.

(** [ISequencedDocumentMessage]. *)
Record ISequencedDocumentMessage := {
  clientId : string;
  sequenceNumber : Z;
  referenceSequenceNumber : Z;
  minimumSequenceNumber : Z;
  contents : IMergeTreeOp
}.

Definition set_referenceSequenceNumber (m : ISequencedDocumentMessage) (v : Z)
    : ISequencedDocumentMessage :=
  {| clientId := clientId m; sequenceNumber := sequenceNumber m;
     referenceSequenceNumber := v;
     minimumSequenceNumber := minimumSequenceNumber m;
     contents := contents m |}.

Definition set_minimumSequenceNumber (m : ISequencedDocumentMessage) (v : Z)
    : ISequencedDocumentMessage :=
  {| clientId := clientId m; sequenceNumber := sequenceNumber m;
     referenceSequenceNumber := referenceSequenceNumber m;
     minimumSequenceNumber := v;
     contents := contents m |}.

Definition set_contents (m : ISequencedDocumentMessage) (v : IMergeTreeOp)
    : ISequencedDocumentMessage :=
  {| clientId := clientId m; sequenceNumber := sequenceNumber m;
     referenceSequenceNumber := referenceSequenceNumber m;
     minimumSequenceNumber := minimumSequenceNumber m;
     contents := v |}.

(** [MergeTree.LocalReference]: [segment] is unset once the reference has
    lost its anchor. *)
Record LocalReference := {
  lref_segment : option ISegment;
  lref_offset : Z
}.

(** ** The store of message objects

    Messages are JavaScript objects: the history buffer holds references
    to them and [snapshotMergeTree] writes to them in place, so the model
    keeps them in a store and passes references around. *)
Definition ref := nat.

Record Heap := {
  cells : ref → ISequencedDocumentMessage;
  next : ref                      (* the next unused address *)
}.

Definition deref (h : Heap) (r : ref) : ISequencedDocumentMessage := cells h r.

Definition write (h : Heap) (r : ref) (m : ISequencedDocumentMessage) : Heap :=
  {| cells := λ r', if decide (r' = r) then m else cells h r';
     next := next h |}.

Definition alloc (h : Heap) (m : ISequencedDocumentMessage) : Heap * ref :=
  ({| cells := λ r', if decide (r' = next h) then m else cells h r';
      next := S (next h) |}, next h).

(** [cloneDeep(message)]: a new object with the same field values. *)
Definition cloneDeep (h : Heap) (r : ref) : Heap * ref := alloc h (deref h r).

(** ** Promises and exceptions *)

(** State of the promise inside a [Deferred]. *)
Inductive PromiseState :=
| Pending
| Resolved
| Rejected (reason : JsVal).

(** A promise settles once; later [resolve]/[reject] calls are ignored. *)
Definition Deferred_resolve (d : PromiseState) : PromiseState :=
  match d with Pending => Resolved | _ => d end.
Definition Deferred_reject (d : PromiseState) (error : JsVal) : PromiseState :=
  match d with Pending => Rejected error | _ => d end.

(** How a call (or an awaited promise) completes. *)
Inductive Completion (A : Type) :=
| Normal (a : A)
| Throw (error : JsVal).
Arguments Normal {A} a.
Arguments Throw {A} error.

(** [IObjectStorageService]: [read(path)] resolves to the blob or rejects. *)
Definition IObjectStorageService := string → Completion string.

Definition snapshotFileName : string := "header".
Definition contentPath : string := "content".

(** [class ContentObjectStorage]. *)
Definition ContentObjectStorage (storage : IObjectStorageService)
    : IObjectStorageService :=
  λ path, storage (contentPath +:+ "/" +:+ path).

(** [runtime.deltaManager], when the runtime has one. *)
Record IDeltaManager := {
  dm_minimumSequenceNumber : Z;
  dm_referenceSequenceNumber : Z
}.

(** ** Collaborators imported from other packages

    The sequence is written against [MergeTree.Client], the map kernel
    and a few helpers of the shared-object and core-utils packages.
    They enter the model as interfaces. *)

(** [MergeTree.Client] (and the static helpers of the merge-tree package).
    Methods that mutate the client return the updated client. *)
Class MergeTreeClient (Client : Type) := {
  (** [applyMsg(msg)]: applies the op; the second component lists the
      delta notifications the client raises while doing so, in order.
      The message is only read. *)
  applyMsg : Client → ISequencedDocumentMessage → Client * list SequenceDeltaEvent;
  (** [removeRangeLocal(start, end)]: the op, or [undefined]. *)
  removeRangeLocal : Client → Z → Z → Client * option IMergeTreeOp;
  (** [annotateRangeLocal(start, end, props, combiningOp)]. *)
  annotateRangeLocal :
    Client → Z → Z → PropertySet → option ICombiningOp → Client * option IMergeTreeOp;
  (** [getPosition(segment)]. *)
  client_getPosition : Client → ISegment → Z;
  (** [resolveRemoteClientPosition(pos, refSeq, clientId)]; [None] is the
      failure sentinel. *)
  client_resolveRemoteClientPosition : Client → Z → Z → string → option Z;
  (** [updateSeqNumbers(min, seq)]. *)
  updateSeqNumbers : Client → Z → Z → Client;
  (** [getCollabWindow().minSeq]. *)
  collabWindow_minSeq : Client → Z;
  (** [createSnapshotter()] followed by [extractSync()] and [emit(msgs, ..)]. *)
  snapshotter_emit : Client → list ISequencedDocumentMessage → JsVal;
  (** [createSnapshotLoader(runtime).initialize(branchId, storage)]: the
      loaded client and the catch-up messages, or a rejection. *)
  loader_initialize :
    Client → string → IObjectStorageService →
    Completion (Client * list ISequencedDocumentMessage);
  (** [MergeTree.matchProperties(a, b)]. *)
  matchProperties : PropertySet → PropertySet → bool
}.

(** [MapKernel], as far as loading uses it. *)
Class MapKernel (Kernel : Type) := {
  (** [populate(data)]: parses the serialized collections; throws on
      malformed data. *)
  populate : Kernel → option string → Completion Kernel;
  (** [attach(client, key)] on every collection under [keys()], and the
      [valueChanged] listener that attaches collections created later. *)
  attachCollections : Kernel → Kernel
}.

(** Helpers of the shared-object-base and core-utils packages. *)
Class Helpers := {
  (** [parseHandles(value, serializer, context)]: the decoded value; the
      result is a new object, the argument is only read. *)
  parseHandles : ISequencedDocumentMessage → ISequencedDocumentMessage;
  (** [makeHandlesSerializable(value, serializer, context, bind)]. *)
  makeHandlesSerializable : IMergeTreeOp → IMergeTreeOp;
  (** [fromBase64ToUtf8(input)]. *)
  fromBase64ToUtf8 : string → string
}.

(** ** The class *)

Section SharedSegmentSequence.

Context {Client Kernel : Type}.
Context `{!MergeTreeClient Client, !MapKernel Kernel, !Helpers}.

(** The fields of a [SharedSegmentSequence], the message objects it can
    reach, and what it has handed to the outside: the ops passed to
    [submitLocalMessage] and the error events sent to the logger. *)
Record SharedSegmentSequence := {
  client : Client;
  isLoaded : bool;
  loadedDeferred : PromiseState;
  messagesSinceMSNChange : list ref;
  intervalMapKernel : Kernel;
  objects : Heap;
  submitted : list IMergeTreeOp;
  errorEvents : list JsVal
}.

Definition set_client (this : SharedSegmentSequence) (c : Client) :=
  {| client := c; isLoaded := isLoaded this;
     loadedDeferred := loadedDeferred this;
     messagesSinceMSNChange := messagesSinceMSNChange this;
     intervalMapKernel := intervalMapKernel this; objects := objects this;
     submitted := submitted this; errorEvents := errorEvents this |}.

Definition set_isLoaded (this : SharedSegmentSequence) (b : bool) :=
  {| client := client this; isLoaded := b;
     loadedDeferred := loadedDeferred this;
     messagesSinceMSNChange := messagesSinceMSNChange this;
     intervalMapKernel := intervalMapKernel this; objects := objects this;
     submitted := submitted this; errorEvents := errorEvents this |}.

Definition set_loadedDeferred (this : SharedSegmentSequence) (d : PromiseState) :=
  {| client := client this; isLoaded := isLoaded this;
     loadedDeferred := d;
     messagesSinceMSNChange := messagesSinceMSNChange this;
     intervalMapKernel := intervalMapKernel this; objects := objects this;
     submitted := submitted this; errorEvents := errorEvents this |}.

Definition set_messagesSinceMSNChange (this : SharedSegmentSequence) (l : list ref) :=
  {| client := client this; isLoaded := isLoaded this;
     loadedDeferred := loadedDeferred this;
     messagesSinceMSNChange := l;
     intervalMapKernel := intervalMapKernel this; objects := objects this;
     submitted := submitted this; errorEvents := errorEvents this |}.

Definition set_intervalMapKernel (this : SharedSegmentSequence) (k : Kernel) :=
  {| client := client this; isLoaded := isLoaded this;
     loadedDeferred := loadedDeferred this;
     messagesSinceMSNChange := messagesSinceMSNChange this;
     intervalMapKernel := k; objects := objects this;
     submitted := submitted this; errorEvents := errorEvents this |}.

Definition set_objects (this : SharedSegmentSequence) (h : Heap) :=
  {| client := client this; isLoaded := isLoaded this;
     loadedDeferred := loadedDeferred this;
     messagesSinceMSNChange := messagesSinceMSNChange this;
     intervalMapKernel := intervalMapKernel this; objects := h;
     submitted := submitted this; errorEvents := errorEvents this |}.

Definition set_submitted (this : SharedSegmentSequence) (l : list IMergeTreeOp) :=
  {| client := client this; isLoaded := isLoaded this;
     loadedDeferred := loadedDeferred this;
     messagesSinceMSNChange := messagesSinceMSNChange this;
     intervalMapKernel := intervalMapKernel this; objects := objects this;
     submitted := l; errorEvents := errorEvents this |}.

Definition set_errorEvents (this : SharedSegmentSequence) (l : list JsVal) :=
  {| client := client this; isLoaded := isLoaded this;
     loadedDeferred := loadedDeferred this;
     messagesSinceMSNChange := messagesSinceMSNChange this;
     intervalMapKernel := intervalMapKernel this; objects := objects this;
     submitted := submitted this; errorEvents := l |}.

(** *** [createOpsFromDelta] (static) *)

(** The [props] object built for one annotated range: every key of the
    range's [propertyDeltas], with the segment's current value, or
    [null] when the segment has none. *)
Definition annotatedProps (r : ISequenceDeltaRange) : PropertySet :=
  foldl
    (λ (props : PropertySet) (key : string),
       <[key := match properties (segment r) !! key with
                | None | Some JUndefined => JNull
                | Some v => v
                end]> props)
    ∅ (Object_keys (propertyDeltas r)).

(** One iteration of [for (const r of event.ranges)].  [ops] is the array
    local to the call, so its last element, when there is one, was pushed
    by an earlier iteration of the same [case]. *)
Definition createOpsFromDelta_body (deltaOperation : MergeTreeDeltaType)
    (ops : list IMergeTreeOp) (r : ISequenceDeltaRange) : list IMergeTreeOp :=
  match deltaOperation with
  | ANNOTATE =>
      let props := annotatedProps r in
      match ops !! (length ops - 1)%nat with
      | Some (Annotate lpos1 lpos2 lprops lcombiningOp) =>
          if (lpos2 =? position r) && matchProperties lprops props
          then <[(length ops - 1)%nat :=
                   Annotate lpos1 (lpos2 + cachedLength (segment r)) lprops lcombiningOp]> ops
          else ops ++ [createAnnotateRangeOp (position r)
                         (position r + cachedLength (segment r)) props None]
      | _ => ops ++ [createAnnotateRangeOp (position r)
                       (position r + cachedLength (segment r)) props None]
      end
  | INSERT =>
      ops ++ [createInsertOp (position r) (toJSONObject (segment r))]
  | REMOVE =>
      match ops !! (length ops - 1)%nat with
      | Some (Remove lpos1 lpos2) =>
          if lpos1 =? position r
          then <[(length ops - 1)%nat :=
                   Remove lpos1 (lpos2 + cachedLength (segment r))]> ops
          else ops ++ [createRemoveRangeOp (position r)
                         (position r + cachedLength (segment r))]
      | _ => ops ++ [createRemoveRangeOp (position r)
                       (position r + cachedLength (segment r))]
      end
  | GROUP => ops
  end.

Definition createOpsFromDelta (event : SequenceDeltaEvent) : list IMergeTreeOp :=
  foldl (createOpsFromDelta_body (deltaOperation event)) [] (ranges event).

(** The [type] field of an op. *)
Definition opType (op : IMergeTreeOp) : MergeTreeDeltaType :=
  match op with
  | Insert _ _ => INSERT
  | Remove _ _ => REMOVE
  | Annotate _ _ _ _ => ANNOTATE
  | Group _ => GROUP
  end.

(** *** Local edits *)

(** [submitLocalMessage] of the base class hands the op to the transport. *)
Definition submitLocalMessage (this : SharedSegmentSequence) (op : IMergeTreeOp)
    : SharedSegmentSequence :=
  set_submitted this (submitted this ++ [op]).

Definition submitSequenceMessage (this : SharedSegmentSequence)
    (message : IMergeTreeOp) : SharedSegmentSequence :=
  let translated := makeHandlesSerializable message in
  submitLocalMessage this translated.

Definition removeRange (this : SharedSegmentSequence) (start end_ : Z)
    : SharedSegmentSequence * option IMergeTreeOp :=
  let '(c, removeOp) := removeRangeLocal (client this) start end_ in
  let this := set_client this c in
  let this :=
    match removeOp with
    | Some op => submitSequenceMessage this op
    | None => this
    end in
  (this, removeOp).

Definition annotateRange (this : SharedSegmentSequence) (start end_ : Z)
    (props : PropertySet) (combiningOp : option ICombiningOp)
    : SharedSegmentSequence :=
  let '(c, annotateOp) :=
    annotateRangeLocal (client this) start end_ props combiningOp in
  let this := set_client this c in
  match annotateOp with
  | Some op => submitSequenceMessage this op
  | None => this
  end.

(** *** Positions *)

Definition getPosition (this : SharedSegmentSequence) (segment : ISegment) : Z :=
  client_getPosition (client this) segment.

Definition localRefToPos (this : SharedSegmentSequence) (localRef : LocalReference)
    : Z :=
  match lref_segment localRef with
  | Some segment => lref_offset localRef + getPosition this segment
  | None => -1
  end.

Definition resolveRemoteClientPosition (this : SharedSegmentSequence)
    (remoteClientPosition remoteClientRefSeq : Z) (remoteClientId : string)
    : option Z :=
  client_resolveRemoteClientPosition (client this)
    remoteClientPosition remoteClientRefSeq remoteClientId.

(** *** The history buffer *)

(** The loop of [processMinSequenceNumberChanged]: the index of the first
    buffered message whose sequence number exceeds [minSeq], or the
    buffer's length when there is none. *)
Fixpoint scanIndex (h : Heap) (minSeq : Z) (buffer : list ref) : nat :=
  match buffer with
  | [] => 0%nat
  | r :: rest =>
      if sequenceNumber (deref h r) >? minSeq then 0%nat
      else S (scanIndex h minSeq rest)
  end.

Definition processMinSequenceNumberChanged (this : SharedSegmentSequence)
    (minSeq : Z) : SharedSegmentSequence :=
  let index := scanIndex (objects this) minSeq (messagesSinceMSNChange this) in
  if negb (index =? 0)%nat
  then set_messagesSinceMSNChange this (drop index (messagesSinceMSNChange this))
  else this.

(** [ops.length !== 1 ? createGroupOp(...ops) : ops[0]]. *)
Definition regroup (ops : list IMergeTreeOp) : IMergeTreeOp :=
  match ops with
  | [op] => op
  | _ => createGroupOp ops
  end.

(** [message.referenceSequenceNumber !== message.sequenceNumber - 1]. *)
Definition needsTransformation (message : ISequencedDocumentMessage) : bool :=
  negb (referenceSequenceNumber message =? sequenceNumber message - 1).

(** [processMergeTreeMsg] up to and including the [push] onto
    [messagesSinceMSNChange].  Besides the updated object it returns the
    reference held by the local [message]. *)
Definition processMergeTreeMsg_stash (this : SharedSegmentSequence)
    (rawMessage : ref) : SharedSegmentSequence * ref :=
  let '(h, message) :=
    alloc (objects this) (parseHandles (deref (objects this) rawMessage)) in
  let needsTransformation := needsTransformation (deref h message) in
  let '(h, stashMessage) :=
    if needsTransformation then
      let '(h, stashMessage) := cloneDeep h message in
      (write h stashMessage
         (set_referenceSequenceNumber (deref h stashMessage)
            (sequenceNumber (deref h message) - 1)),
       stashMessage)
    else (h, message) in
  (* the listener [transfromOps] collects into [ops] while it is attached *)
  let '(c, events) := applyMsg (client this) (deref h message) in
  let ops := if needsTransformation then mjoin (createOpsFromDelta <$> events) else [] in
  let h :=
    if needsTransformation
    then write h stashMessage (set_contents (deref h stashMessage) (regroup ops))
    else h in
  let this := set_client this c in
  let this := set_objects this h in
  let this :=
    set_messagesSinceMSNChange this (messagesSinceMSNChange this ++ [stashMessage]) in
  (this, message).

(** The test guarding the "GC every once in a while" step. *)
Definition compactionDue (this : SharedSegmentSequence) (message : ref) : bool :=
  (20 <? length (messagesSinceMSNChange this))%nat
  && match messagesSinceMSNChange this !! 20%nat with
     | Some m20 =>
         sequenceNumber (deref (objects this) m20)
         <? minimumSequenceNumber (deref (objects this) message)
     | None => false
     end.

Definition processMergeTreeMsg (this : SharedSegmentSequence) (rawMessage : ref)
    : SharedSegmentSequence :=
  let '(this, message) := processMergeTreeMsg_stash this rawMessage in
  if compactionDue this message
  then processMinSequenceNumberChanged this
         (minimumSequenceNumber (deref (objects this) message))
  else this.

(** [this.messagesSinceMSNChange.forEach((m) => m.minimumSequenceNumber = minSeq)]. *)
Definition stampMinimumSequenceNumber (h : Heap) (buffer : list ref) (minSeq : Z)
    : Heap :=
  foldl (λ h m, write h m (set_minimumSequenceNumber (deref h m) minSeq)) h buffer.

(** The text of a failed [assert]. *)
Definition AssertionError : JsVal := JObj "AssertionError".

Definition snapshotMergeTree (this : SharedSegmentSequence)
    (deltaManager : option IDeltaManager)
    : SharedSegmentSequence * Completion JsVal :=
  if negb (isLoaded this) then (this, Throw AssertionError) else
  let minSeq :=
    match deltaManager with
    | Some dm => dm_minimumSequenceNumber dm
    | None => 0
    end in
  let '(this, ok) :=
    match deltaManager with
    | Some dm =>
        let this := processMinSequenceNumberChanged this minSeq in
        let this :=
          set_client this
            (updateSeqNumbers (client this) minSeq (dm_referenceSequenceNumber dm)) in
        (this, collabWindow_minSeq (client this) =? minSeq)
    | None => (this, true)
    end in
  if negb ok then (this, Throw AssertionError) else
  let this :=
    set_objects this
      (stampMinimumSequenceNumber (objects this) (messagesSinceMSNChange this) minSeq) in
  let mtSnap :=
    snapshotter_emit (client this)
      (deref (objects this) <$> messagesSinceMSNChange this) in
  (this, Normal mtSnap).

(** *** Loading *)

Definition initializeIntervalCollections (this : SharedSegmentSequence)
    : SharedSegmentSequence :=
  set_intervalMapKernel this (attachCollections (intervalMapKernel this)).

(** [loadFinished(error?)]; a call without argument passes [undefined]. *)
Definition loadFinished (this : SharedSegmentSequence) (error : JsVal)
    : SharedSegmentSequence :=
  let this := initializeIntervalCollections this in
  if truthy error then
    let this := set_errorEvents this (errorEvents this ++ [error]) in
    set_loadedDeferred this (Deferred_reject (loadedDeferred this) error)
  else
    let this := set_isLoaded this true in
    set_loadedDeferred this (Deferred_resolve (loadedDeferred this)).

(** [msgs.forEach((m) => this.processMergeTreeMsg(m))]: the loader's
    messages are objects of their own. *)
Definition processLoadedMessages (this : SharedSegmentSequence)
    (msgs : list ISequencedDocumentMessage) : SharedSegmentSequence :=
  foldl
    (λ this m,
       let '(h, r) := alloc (objects this) m in
       processMergeTreeMsg (set_objects this h) r)
    this msgs.

(** [loadCore(branchId, storage)].  The result says how the returned
    promise settles. *)
Definition loadCore (this : SharedSegmentSequence) (branchId : string)
    (storage : IObjectStorageService) : SharedSegmentSequence * Completion unit :=
  match storage snapshotFileName with
  | Throw error => (this, Throw error)
  | Normal header =>
      let data :=
        if truthy (JStr header) then Some (fromBase64ToUtf8 header) else None in
      match populate (intervalMapKernel this) data with
      | Throw error => (this, Throw error)
      | Normal kernel =>
          let this := set_intervalMapKernel this kernel in
          (* try *)
          match loader_initialize (client this) branchId (ContentObjectStorage storage) with
          | Normal (c, msgs) =>
              let this := set_client this c in
              let this := processLoadedMessages this msgs in
              (loadFinished this JUndefined, Normal ())
          | Throw error =>
              (* catch (error) *)
              (loadFinished this error, Normal ())
          end
      end
  end.

Definition initializeLocalCore (this : SharedSegmentSequence) : SharedSegmentSequence :=
  loadFinished this JUndefined.

(** *** Interval collections *)

Definition getIntervalCollectionPath (label : string) : string :=
  "intervalCollections/" +:+ label.

(** *** Measures used to state properties *)

(** The length of the range a remove or annotate op covers. *)
Definition opSpan (op : IMergeTreeOp) : Z :=
  match op with
  | Remove pos1 pos2 => pos2 - pos1
  | Annotate pos1 pos2 _ _ => pos2 - pos1
  | _ => 0
  end.

Definition opsSpan (ops : list IMergeTreeOp) : Z :=
  foldr (λ op total, opSpan op + total) 0 ops.

(** The total length of the segments an event reports. *)
Definition rangesLength (ranges : list ISequenceDeltaRange) : Z :=
  foldr (λ r total, cachedLength (segment r) + total) 0 ranges.

(** What [createOpsFromDelta] stores for a property of a segment. *)
Definition currentOrNull (segment : ISegment) (key : string) : JsVal :=
  match properties segment !! key with
  | None | Some JUndefined => JNull
  | Some v => v
  end.

(** The readiness promise and the [isLoaded] flag tell the same story. *)
Definition readinessConsistent (this : SharedSegmentSequence) : Prop :=
  (isLoaded this = true → loadedDeferred this ≠ Pending)
  ∧ (loadedDeferred this = Resolved → isLoaded this = true).

(** *** Views used to state properties *)

(** The scan of [processMinSequenceNumberChanged], read off the buffered
    messages themselves rather than through their references. *)
Fixpoint firstAbove (minSeq : Z) (msgs : list ISequencedDocumentMessage) : nat :=
  match msgs with
  | [] => 0%nat
  | m :: rest =>
      if sequenceNumber m >? minSeq then 0%nat else S (firstAbove minSeq rest)
  end.


(** The messages currently in the history buffer. *)
Definition historyBuffer (this : SharedSegmentSequence)
    : list ISequencedDocumentMessage :=
  deref (objects this) <$> messagesSinceMSNChange this.

(** Every buffered reference designates an allocated object. *)
Definition bufferAllocated (this : SharedSegmentSequence) : Prop :=
  Forall (λ r, (r < next (objects this))%nat) (messagesSinceMSNChange this).

(** The buffered messages are in strictly increasing sequence-number
    order. *)
Definition increasing (this : SharedSegmentSequence) : Prop :=
  StronglySorted Z.lt (sequenceNumber <$> historyBuffer this).

(** Every buffered message has a sequence number above [watermark]. *)
Definition aboveWatermark (watermark : Z) (this : SharedSegmentSequence) : Prop :=
  Forall (λ m, watermark < sequenceNumber m) (historyBuffer this).

End SharedSegmentSequence.

Arguments SharedSegmentSequence : clear implicits.

(** ** The Collaboration Client of the design document

    The merge-tree package is not part of the sources above.  Where a
    property of the sequence is decided inside [MergeTree.Client], the
    client is taken from the design document (sections 3, 4.1 and 4.2). *)

(** Modelled from the spec: the boundary of the Segment Store (section
    4.1), whose implementation is in the merge-tree package: applying an
    op expressed against a reference sequence number by a given client,
    reporting the resulting delta ranges; locating a segment; re-basing a
    remote position; dumping and loading the store. *)
Class SegmentStore (Store : Type) := {
  store_apply : Store → IMergeTreeOp → Z → string → Store * list SequenceDeltaEvent;
  store_getPosition : Store → ISegment → Z;
  store_rebase : Store → Z → Z → string → Z;
  store_snapshot : Store → list ISequencedDocumentMessage → JsVal;
  store_load :
    string → IObjectStorageService →
    Completion (Store * list ISequencedDocumentMessage)
}.

Section CollaborationClient.

Context {Store : Type} `{!SegmentStore Store}.

(** Modelled from the spec: the state of [MergeTree.Client], namely the
    Collaboration Window of section 3 and the store it owns. *)
Record CollaborationClient := {
  currentSequenceNumber : Z;
  window_minimumSequenceNumber : Z;
  collaborating : bool;
  localClientId : string;
  store : Store
}.

Definition set_store (c : CollaborationClient) (s : Store) :=
  {| currentSequenceNumber := currentSequenceNumber c;
     window_minimumSequenceNumber := window_minimumSequenceNumber c;
     collaborating := collaborating c; localClientId := localClientId c;
     store := s |}.

Definition set_window (c : CollaborationClient) (minSeq currentSeq : Z) :=
  {| currentSequenceNumber := currentSeq;
     window_minimumSequenceNumber := minSeq;
     collaborating := collaborating c; localClientId := localClientId c;
     store := store c |}.

(** Modelled from the spec: [Client.removeRangeLocal] of the merge-tree
    package, after [submitLocalOp] of section 4.2: it mutates the store
    at once and returns the op, or none if the edit was a no-op, such as
    an empty range. *)
Definition spec_removeRangeLocal (c : CollaborationClient) (start end_ : Z)
    : CollaborationClient * option IMergeTreeOp :=
  if end_ <=? start then (c, None)
  else
    let op := createRemoveRangeOp start end_ in
    let '(s, _) := store_apply (store c) op (currentSequenceNumber c) (localClientId c) in
    (set_store c s, Some op).

(** Modelled from the spec: [Client.annotateRangeLocal] of the merge-tree
    package, after [submitLocalOp] of section 4.2. *)
Definition spec_annotateRangeLocal (c : CollaborationClient) (start end_ : Z)
    (props : PropertySet) (combiningOp : option ICombiningOp)
    : CollaborationClient * option IMergeTreeOp :=
  if end_ <=? start then (c, None)
  else
    let op := createAnnotateRangeOp start end_ props combiningOp in
    let '(s, _) := store_apply (store c) op (currentSequenceNumber c) (localClientId c) in
    (set_store c s, Some op).

(** Modelled from the spec: [Client.applyMsg] of the merge-tree package,
    after [applyRemoteMessage] of section 4.2: it applies the contents to
    the store, advances the current sequence number to the message's, and
    raises one notification per delta; the client's own op was applied
    when it was made and is not applied again. *)
Definition spec_applyMsg (c : CollaborationClient) (msg : ISequencedDocumentMessage)
    : CollaborationClient * list SequenceDeltaEvent :=
  let c' := set_window c (window_minimumSequenceNumber c) (sequenceNumber msg) in
  if collaborating c && String.eqb (clientId msg) (localClientId c)
  then (c', [])
  else
    let '(s, events) :=
      store_apply (store c) (contents msg) (referenceSequenceNumber msg) (clientId msg) in
    (set_store c' s, events).

(** Modelled from the spec: [Client.resolveRemoteClientPosition] of the
    merge-tree package, after section 4.2: it maps the remote position
    into local coordinates, and fails with a sentinel if the reference
    sequence number is older than the local minimum sequence number. *)
Definition spec_resolveRemoteClientPosition (c : CollaborationClient)
    (pos refSeq : Z) (remoteClientId : string) : option Z :=
  if refSeq <? window_minimumSequenceNumber c then None
  else Some (store_rebase (store c) pos refSeq remoteClientId).

(** Modelled from the spec: [Client.updateSeqNumbers] of the merge-tree
    package, after the window invariant of section 3: the minimum
    sequence number only increases. *)
Definition spec_updateSeqNumbers (c : CollaborationClient) (minSeq seq : Z)
    : CollaborationClient :=
  set_window c (Z.max (window_minimumSequenceNumber c) minSeq) seq.

(** Modelled from the spec: the snapshot loader of the merge-tree
    package, after section 6: it reads the store's chunks and returns the
    catch-up messages, or fails with the cause. *)
Definition spec_loader_initialize (c : CollaborationClient) (branchId : string)
    (storage : IObjectStorageService)
    : Completion (CollaborationClient * list ISequencedDocumentMessage) :=
  match store_load branchId storage with
  | Normal (s, msgs) => Normal (set_store c s, msgs)
  | Throw error => Throw error
  end.

(** Modelled from the spec: [MergeTree.matchProperties], after section
    4.3: two property sets match when they are identical. *)
Definition spec_matchProperties (a b : PropertySet) : bool := bool_decide (a = b).

#[global] Instance CollaborationClient_MergeTreeClient
    : MergeTreeClient CollaborationClient := {|
  applyMsg := spec_applyMsg;
  removeRangeLocal := spec_removeRangeLocal;
  annotateRangeLocal := spec_annotateRangeLocal;
  client_getPosition := λ c segment, store_getPosition (store c) segment;
  client_resolveRemoteClientPosition := spec_resolveRemoteClientPosition;
  updateSeqNumbers := spec_updateSeqNumbers;
  collabWindow_minSeq := window_minimumSequenceNumber;
  snapshotter_emit := λ c msgs, store_snapshot (store c) msgs;
  loader_initialize := spec_loader_initialize;
  matchProperties := spec_matchProperties
|}.

End CollaborationClient.

Arguments CollaborationClient : clear implicits.

(** ** The listener wiring set up by the constructor

    The constructor registers a [newListener] and a [removeListener]
    handler on the event emitter the class extends.  They install
    [client.mergeTreeDeltaCallback] (and the maintenance callback) when a
    listener for the matching event arrives and clear it when the last
    one leaves.  The emitter raises [newListener] before it adds a
    listener and [removeListener] after it has removed one. *)

(** Listeners are told apart by an identity. *)
Definition Listener := nat.

Record Wiring := {
  listeners : gmap string (list Listener);
  mergeTreeDeltaCallback : bool;         (* is the callback set? *)
  mergeTreeMaintenanceCallback : bool
}.

(** The emitter's [listeners(event)]. *)
Definition listenersOf (w : Wiring) (event : string) : list Listener :=
  default [] (listeners w !! event).

(** The emitter's [listenerCount(event)]. *)
Definition listenerCount (w : Wiring) (event : string) : nat :=
  length (listenersOf w event).

(** The state the constructor leaves. *)
Definition Wiring_new : Wiring :=
  {| listeners := ∅; mergeTreeDeltaCallback := false;
     mergeTreeMaintenanceCallback := false |}.

(** The handler passed to [super.on("newListener", ..)]. *)
Definition onNewListener (w : Wiring) (event : string) : Wiring :=
  if String.eqb event "sequenceDelta" then
    if negb (mergeTreeDeltaCallback w)
    then {| listeners := listeners w; mergeTreeDeltaCallback := true;
            mergeTreeMaintenanceCallback := mergeTreeMaintenanceCallback w |}
    else w
  else if String.eqb event "maintenance" then
    if negb (mergeTreeMaintenanceCallback w)
    then {| listeners := listeners w;
            mergeTreeDeltaCallback := mergeTreeDeltaCallback w;
            mergeTreeMaintenanceCallback := true |}
    else w
  else w.

(** The handler passed to [super.on("removeListener", ..)]. *)
Definition onRemoveListener (w : Wiring) (event : string) : Wiring :=
  if String.eqb event "sequenceDelta" then
    if (listenerCount w event =? 0)%nat
    then {| listeners := listeners w; mergeTreeDeltaCallback := false;
            mergeTreeMaintenanceCallback := mergeTreeMaintenanceCallback w |}
    else w
  else if String.eqb event "maintenance" then
    if (listenerCount w event =? 0)%nat
    then {| listeners := listeners w;
            mergeTreeDeltaCallback := mergeTreeDeltaCallback w;
            mergeTreeMaintenanceCallback := false |}
    else w
  else w.

(** [on(event, listener)]: the class forwards to [super.on]. *)
Definition on (w : Wiring) (event : string) (listener : Listener) : Wiring :=
  let w := onNewListener w event in
  {| listeners := <[event := listenersOf w event ++ [listener]]> (listeners w);
     mergeTreeDeltaCallback := mergeTreeDeltaCallback w;
     mergeTreeMaintenanceCallback := mergeTreeMaintenanceCallback w |}.

(** The emitter drops the most recently added instance of a listener. *)
Fixpoint dropFirst (listener : Listener) (l : list Listener) : list Listener :=
  match l with
  | [] => []
  | x :: l => if decide (x = listener) then l else x :: dropFirst listener l
  end.

Definition dropLast (listener : Listener) (l : list Listener) : list Listener :=
  reverse (dropFirst listener (reverse l)).

(** [removeListener(event, listener)]; nothing happens, and no event is
    raised, when the listener is not registered. *)
Definition removeListener (w : Wiring) (event : string) (listener : Listener)
    : Wiring :=
  if bool_decide (listener ∈ listenersOf w event) then
    let w :=
      {| listeners := <[event := dropLast listener (listenersOf w event)]> (listeners w);
         mergeTreeDeltaCallback := mergeTreeDeltaCallback w;
         mergeTreeMaintenanceCallback := mergeTreeMaintenanceCallback w |} in
    onRemoveListener w event
  else w.

Inductive WiringCall :=
| On (event : string) (listener : Listener)
| RemoveListener (event : string) (listener : Listener).

Definition wire (w : Wiring) (c : WiringCall) : Wiring :=
  match c with
  | On event listener => on w event listener
  | RemoveListener event listener => removeListener w event listener
  end.

(** Each callback is set exactly while its event has a listener. *)
Definition wired (w : Wiring) : Prop :=
  (mergeTreeDeltaCallback w = true ↔ listenersOf w "sequenceDelta" ≠ [])
  ∧ (mergeTreeMaintenanceCallback w = true ↔ listenersOf w "maintenance" ≠ []).

End Sequence.

(* ===================================================================== *)
(** * Sample collaborators and data                                       *)
(* ===================================================================== *)

Module Sample.

Import Sequence.

(** A segment store that replays a script: each applied op raises the
    next list of notifications of the script. *)
Definition ScriptedStore := list (list SequenceDeltaEvent).

#[export] Instance ScriptedStore_SegmentStore : SegmentStore ScriptedStore := {|
  store_apply := λ s _ _ _,
    match s with
    | [] => ([], [])
    | events :: rest => (rest, events)
    end;
  store_getPosition := λ _ segment, 10;
  store_rebase := λ _ pos _ _, pos;
  store_snapshot := λ _ _, JObj "snapshot";
  store_load := λ _ storage,
    match storage "header" with
    | Normal _ => Normal ([], [])
    | Throw error => Throw error
    end
|}.

(** A map kernel without collections; it rejects the data ["corrupt"]. *)
#[export] Instance unit_MapKernel : MapKernel unit := {|
  populate := λ k data,
    match data with
    | Some "corrupt"%string => Throw (JObj "SyntaxError")
    | _ => Normal k
    end;
  attachCollections := λ k, k
|}.

(** Messages without handles: decoding and encoding change nothing. *)
#[export] Instance plain_Helpers : Helpers := {|
  parseHandles := λ m, m;
  makeHandlesSerializable := λ op, op;
  fromBase64ToUtf8 := λ s, s
|}.

Definition bold : PropertySet := {[ "bold"%string := JBool true ]}.

Definition boldSegment (len : Z) : ISegment :=
  {| cachedLength := len; properties := bold; toJSONObject := JStr "text" |}.

Definition boldRange (pos len : Z) : ISequenceDeltaRange :=
  {| position := pos; segment := boldSegment len; propertyDeltas := bold |}.

Definition removedRange (pos len : Z) : ISequenceDeltaRange :=
  {| position := pos; segment := boldSegment len; propertyDeltas := ∅ |}.

Definition msg (seq refSeq minSeq : Z) (op : IMergeTreeOp) : ISequencedDocumentMessage :=
  {| clientId := "B"; sequenceNumber := seq; referenceSequenceNumber := refSeq;
     minimumSequenceNumber := minSeq; contents := op |}.

Definition clientA (script : ScriptedStore) : CollaborationClient ScriptedStore :=
  {| currentSequenceNumber := 5; window_minimumSequenceNumber := 3;
     collaborating := true; localClientId := "A"; store := script |}.

(** A store of message objects holding [msgs] at addresses [0..]. *)
Definition heapOf (msgs : list ISequencedDocumentMessage) : Heap :=
  {| cells := λ r, default (msg 0 0 0 (Group [])) (msgs !! r);
     next := length msgs |}.

(** A sequence over [clientA] whose buffer holds the first [n] of the
    given message objects. *)
Definition sequenceOf (script : ScriptedStore)
    (msgs : list ISequencedDocumentMessage) (n : nat)
    : SharedSegmentSequence (CollaborationClient ScriptedStore) unit :=
  {| client := clientA script; isLoaded := false; loadedDeferred := Pending;
     messagesSinceMSNChange := seq 0 n; intervalMapKernel := ();
     objects := heapOf msgs; submitted := []; errorEvents := [] |}.

(** Twenty-two buffered messages, numbered 1 to 22, none of which moved
    the minimum sequence number. *)
Definition backlog : list ISequencedDocumentMessage :=
  (λ i, msg (Z.of_nat i) (Z.of_nat i - 1) 0 (Remove 0 1)) <$> seq 1 22.

(** A sequence holding [backlog]; the object at address 22 is message 23,
    which reports 22 as minimum sequence number. *)
Definition busy : SharedSegmentSequence (CollaborationClient ScriptedStore) unit :=
  sequenceOf [] (backlog ++ [msg 23 22 22 (Remove 5 6)]) 22.

(** Applying the next op annotates two adjacent segments. *)
Definition gapScript : ScriptedStore :=
  [[ {| deltaOperation := ANNOTATE; ranges := [boldRange 0 2; boldRange 2 3] |} ]].

(** A sequence holding message 6; the object at address 1 is message 7,
    made by a sender that had seen nothing after message 4. *)
Definition catchingUp : SharedSegmentSequence (CollaborationClient ScriptedStore) unit :=
  sequenceOf gapScript
    [msg 6 5 3 (Remove 0 1); msg 7 4 3 (Annotate 0 5 bold None)] 1.

(** Client A after its own insert of "hello" was sequenced as message 1:
    the object at address 1 is client B's insert of "X" at position 0,
    sequenced as message 2 but made against the empty sequence. *)
Definition scenario : SharedSegmentSequence (CollaborationClient ScriptedStore) unit :=
  sequenceOf
    [[ {| deltaOperation := INSERT;
          ranges := [ {| position := 5;
                         segment := {| cachedLength := 1; properties := ∅;
                                       toJSONObject := JStr "X" |};
                         propertyDeltas := ∅ |} ] |} ]]
    [ {| clientId := "A"; sequenceNumber := 1; referenceSequenceNumber := 0;
         minimumSequenceNumber := 0; contents := Insert 0 (JStr "hello") |};
      msg 2 0 0 (Insert 0 (JStr "X")) ] 1.

(** A sequence holding message 6; the object at address 1 is message 7,
    made right after message 6. *)
Definition inStep : SharedSegmentSequence (CollaborationClient ScriptedStore) unit :=
  sequenceOf [] [msg 6 5 3 (Remove 0 1); msg 7 6 3 (Remove 2 3)] 1.

(** [catchingUp] once loaded. *)
Definition loadedCatchingUp
    : SharedSegmentSequence (CollaborationClient ScriptedStore) unit :=
  set_isLoaded catchingUp true.

(** A fresh sequence, as constructed. *)
Definition fresh : SharedSegmentSequence (CollaborationClient ScriptedStore) unit :=
  sequenceOf [] [] 0.

(** A segment store that is loaded from a snapshot: loading yields two
    catch-up messages, and applying them raises nothing for the first
    and an annotation of two adjacent segments for the second. *)
Inductive ArchivedStore := archived (script : ScriptedStore).

#[export] Instance ArchivedStore_SegmentStore : SegmentStore ArchivedStore := {|
  store_apply := λ s _ _ _,
    match s with
    | archived [] => (archived [], [])
    | archived (events :: rest) => (archived rest, events)
    end;
  store_getPosition := λ _ segment, 10;
  store_rebase := λ _ pos _ _, pos;
  store_snapshot := λ _ _, JObj "snapshot";
  store_load := λ _ storage,
    match storage "header" with
    | Normal _ =>
        Normal (archived ([] :: gapScript),
                [msg 6 5 3 (Remove 0 1); msg 7 4 3 (Annotate 0 5 bold None)])
    | Throw error => Throw error
    end
|}.

(** A fresh sequence over an [ArchivedStore]. *)
Definition freshArchived
    : SharedSegmentSequence (CollaborationClient ArchivedStore) unit :=
  {| client := {| currentSequenceNumber := 0; window_minimumSequenceNumber := 0;
                  collaborating := false; localClientId := "A";
                  store := archived [] |};
     isLoaded := false; loadedDeferred := Pending;
     messagesSinceMSNChange := []; intervalMapKernel := ();
     objects := heapOf []; submitted := []; errorEvents := [] |}.

(** Storage in which every blob can be read. *)
Definition readable : IObjectStorageService := λ _, Normal "e30="%string.

(** Storage whose content chunks fail to load with the reason [undefined]. *)
Definition quietFailure : IObjectStorageService :=
  λ path, if String.eqb path "header" then Normal "e30="%string
          else Throw JUndefined.

(** [inStep] once loaded. *)
Definition loadedInStep
    : SharedSegmentSequence (CollaborationClient ScriptedStore) unit :=
  set_isLoaded inStep true.

(** Three segments removed in a row; the first two close up. *)
Definition removal : SequenceDeltaEvent :=
  {| deltaOperation := REMOVE;
     ranges := [removedRange 4 2; removedRange 4 3; removedRange 9 1] |}.

(** Storage whose header blob cannot be read. *)
Definition unreadableHeader : IObjectStorageService :=
  λ path, if String.eqb path "header" then Throw (JObj "ReadError") else Normal "e30="%string.

(** Storage whose header is fine but whose content chunks cannot be read. *)
Definition unreadableContent : IObjectStorageService :=
  λ path, if String.eqb path "header" then Normal "e30="%string
          else Throw (JObj "ReadError").

End Sample.

(* ===================================================================== *)
(** * Properties of DeltaQueueProxy                                       *)
(* ===================================================================== *)

Section DeltaQueueProxyProperties.

Import DeltaQueueProxy.

Lemma updateResume_state (this : t) : (updateResume this).1 = this.
Proof. unfold updateResume. by destruct (negb _ && negb _). Qed.

Lemma updateResume_log (this : t) :
  (updateResume this).2 =
    if negb (systemPaused this) && negb (localPaused this) then [QResume] else [].
Proof. unfold updateResume. by destruct (negb _ && negb _). Qed.

(** A single call invokes the wrapped [resume()] only when it leaves both
    flags cleared. *)
Lemma step_resume_bothClear (this : t) (c : Call) :
  QResume ∈ (step this c).2 → bothClear (step this c).1.
Proof.
  destruct this as [s l], c; cbn.
  - intros Hin. apply list_elem_of_singleton in Hin. discriminate.
  - intros Hin. apply list_elem_of_singleton in Hin. discriminate.
  - unfold systemResume, updateResume; cbn. destruct l; cbn.
    + intros Hin. by apply not_elem_of_nil in Hin.
    + intros _. by split.
  - unfold resume, updateResume; cbn. destruct s; cbn.
    + intros Hin. by apply not_elem_of_nil in Hin.
    + intros _. by split.
Qed.

(** C2. Whatever calls were made before, a call that invokes the wrapped
    queue's [resume()] does so with both [systemPaused] and [localPaused]
    false; [systemResume()] while [localPaused] is set, and [resume()]
    while [systemPaused] is set, do not invoke it; and when both flags
    are set, a resume from both callers, in either order, invokes it
    exactly once. *)
Theorem pause_composition (this : t) (cs : list Call) :
  (∀ pre c post, cs = pre ++ c :: post →
     QResume ∈ (step (run this pre).1 c).2 →
     bothClear (step (run this pre).1 c).1)
  ∧ (localPaused this = true → resumes (systemResume this).2 = 0%nat)
  ∧ (systemPaused this = true → resumes (resume this).2 = 0%nat)
  ∧ (systemPaused this = true → localPaused this = true →
       resumes (run this [Resume; SystemResume]).2 = 1%nat
       ∧ resumes (run this [SystemResume; Resume]).2 = 1%nat).
Proof.
  split; [| split; [| split]].
  - intros pre c post _. apply step_resume_bothClear.
  - destruct this as [s l]; cbn. intros ->. reflexivity.
  - destruct this as [s l]; cbn. intros ->. reflexivity.
  - destruct this as [s l]; cbn. intros -> ->. split; reflexivity.
Qed.

Lemma pause_composition_witness :
  bothClear (step (run new [SystemPause; Pause; Resume]).1 SystemResume).1
  ∧ resumes (systemResume (mk true true)).2 = 0%nat
  ∧ resumes (resume (mk true true)).2 = 0%nat
  ∧ resumes (run (mk true true) [Resume; SystemResume]).2 = 1%nat
  ∧ resumes (run (mk true true) [SystemResume; Resume]).2 = 1%nat.
Proof.
  destruct (pause_composition new [SystemPause; Pause; Resume; SystemResume])
    as (Hfirst & _).
  destruct (pause_composition (mk true true) []) as (_ & Hsys & Hloc & Hboth).
  split; [| split; [| split]].
  - apply (Hfirst [SystemPause; Pause; Resume] SystemResume []); [reflexivity |].
    vm_compute. left.
  - apply Hsys. reflexivity.
  - apply Hloc. reflexivity.
  - apply Hboth; reflexivity.
Defined.

End DeltaQueueProxyProperties.

(* ===================================================================== *)
(** * Properties of SharedSegmentSequence                                 *)
(* ===================================================================== *)

Section HeapFacts.

Import Sequence.

Lemma deref_write_eq h r m : deref (write h r m) r = m.
Proof. unfold deref, write; cbn. by rewrite decide_True. Qed.

Lemma deref_write_ne h r r' m : r' ≠ r → deref (write h r m) r' = deref h r'.
Proof. intros Hne. unfold deref, write; cbn. by rewrite decide_False. Qed.

Lemma deref_alloc_new h m : deref (alloc h m).1 (alloc h m).2 = m.
Proof. unfold deref, alloc; cbn. by rewrite decide_True. Qed.

Lemma deref_alloc_old h m r : (r < next h)%nat → deref (alloc h m).1 r = deref h r.
Proof. intros Hlt. unfold deref, alloc; cbn. rewrite decide_False; [done | lia]. Qed.

Lemma next_alloc h m : next (alloc h m).1 = S (next h).
Proof. reflexivity. Qed.

Lemma alloc_ref h m : (alloc h m).2 = next h.
Proof. reflexivity. Qed.

Lemma next_write h r m : next (write h r m) = next h.
Proof. reflexivity. Qed.

(** Stamping the buffered messages leaves sequence numbers alone. *)
Lemma stampMinimumSequenceNumber_sequenceNumber buffer : ∀ h minSeq r,
  sequenceNumber (deref (stampMinimumSequenceNumber h buffer minSeq) r)
  = sequenceNumber (deref h r).
Proof.
  unfold stampMinimumSequenceNumber.
  induction buffer as [| m buffer IH]; intros h minSeq r; [done |].
  cbn [foldl]. rewrite IH.
  destruct (decide (r = m)) as [-> | Hne].
  - by rewrite deref_write_eq.
  - by rewrite deref_write_ne.
Qed.

Lemma stampMinimumSequenceNumber_next buffer : ∀ h minSeq,
  next (stampMinimumSequenceNumber h buffer minSeq) = next h.
Proof.
  unfold stampMinimumSequenceNumber.
  induction buffer as [| m buffer IH]; intros h minSeq; [done |].
  cbn [foldl]. by rewrite IH.
Qed.

Lemma scanIndex_firstAbove h minSeq buffer :
  scanIndex h minSeq buffer = firstAbove minSeq (deref h <$> buffer).
Proof.
  induction buffer as [| r rest IH]; [done |].
  cbn. by rewrite IH.
Qed.

Lemma firstAbove_le minSeq msgs : (firstAbove minSeq msgs ≤ length msgs)%nat.
Proof.
  induction msgs as [| m rest IH]; cbn; [lia |].
  destruct (sequenceNumber m >? minSeq); lia.
Qed.

(** Everything before the scan index is at or below [minSeq]. *)
Lemma firstAbove_take minSeq msgs :
  Forall (λ m, sequenceNumber m ≤ minSeq) (take (firstAbove minSeq msgs) msgs).
Proof.
  induction msgs as [| m rest IH]; cbn; [constructor |].
  destruct (sequenceNumber m >? minSeq) eqn:Hgt; cbn; [constructor |].
  constructor; [lia | done].
Qed.

(** The message at the scan index, if any, is above [minSeq]. *)
Lemma firstAbove_lookup minSeq msgs m :
  msgs !! firstAbove minSeq msgs = Some m → minSeq < sequenceNumber m.
Proof.
  induction msgs as [| m' rest IH]; cbn; [done |].
  destruct (sequenceNumber m' >? minSeq) eqn:Hgt; cbn.
  - intros [= ->]. lia.
  - done.
Qed.

(** The last op of a non-empty array, split off. *)
Lemma lookup_last_snoc (ops : list IMergeTreeOp) op :
  ops !! (length ops - 1)%nat = Some op → ∃ ops', ops = ops' ++ [op].
Proof.
  intros Hlast. apply last_Some. rewrite last_lookup.
  by replace (pred (length ops)) with (length ops - 1)%nat by lia.
Qed.

Lemma insert_last_snoc (ops' : list IMergeTreeOp) op op' :
  <[(length (ops' ++ [op]) - 1)%nat := op']> (ops' ++ [op]) = ops' ++ [op'].
Proof.
  rewrite length_app. cbn [length].
  replace (length ops' + 1 - 1)%nat with (length ops' + 0)%nat by lia.
  by rewrite insert_app_r.
Qed.

End HeapFacts.

Section SequenceProperties.

Import Sequence.

Context {Client Kernel : Type}.
Context `{!MergeTreeClient Client, !MapKernel Kernel, !Helpers}.
Implicit Types this : SharedSegmentSequence Client Kernel.

(** ** [processMergeTreeMsg] up to the push *)

Ltac heap_simpl n :=
  repeat first
    [ rewrite (decide_True (P := n = n)) by done
    | rewrite (decide_True (P := S n = S n)) by done
    | rewrite (decide_False (P := n = S n)) by lia
    | rewrite (decide_False (P := S n = n)) by lia ].

Ltac stash_cases this rawMessage :=
  unfold processMergeTreeMsg_stash, cloneDeep, alloc, write, deref; cbn;
  heap_simpl (next (objects this));
  destruct (applyMsg (client this) (parseHandles (cells (objects this) rawMessage)))
    as [c events] eqn:Happly;
  destruct (needsTransformation (parseHandles (cells (objects this) rawMessage)))
    eqn:Hneeds; cbn;
  heap_simpl (next (objects this)); rewrite ?Happly; cbn.

Lemma stash_message this rawMessage :
  (processMergeTreeMsg_stash this rawMessage).2 = next (objects this).
Proof. stash_cases this rawMessage; reflexivity. Qed.

Lemma stash_buffer this rawMessage :
  messagesSinceMSNChange (processMergeTreeMsg_stash this rawMessage).1
  = messagesSinceMSNChange this
    ++ [if needsTransformation (parseHandles (deref (objects this) rawMessage))
        then S (next (objects this)) else next (objects this)].
Proof. stash_cases this rawMessage; reflexivity. Qed.

Lemma stash_old this rawMessage r :
  (r < next (objects this))%nat →
  deref (objects (processMergeTreeMsg_stash this rawMessage).1) r = deref (objects this) r.
Proof.
  intros Hlt. stash_cases this rawMessage;
  repeat case_decide; try lia; reflexivity.
Qed.

Lemma stash_message_object this rawMessage :
  deref (objects (processMergeTreeMsg_stash this rawMessage).1) (next (objects this))
  = parseHandles (deref (objects this) rawMessage).
Proof.
  stash_cases this rawMessage; repeat case_decide; try lia; reflexivity.
Qed.

Lemma stash_copy this rawMessage :
  let message := parseHandles (deref (objects this) rawMessage) in
  needsTransformation message = true →
  deref (objects (processMergeTreeMsg_stash this rawMessage).1) (S (next (objects this)))
  = set_contents
      (set_referenceSequenceNumber message (sequenceNumber message - 1))
      (regroup (mjoin (createOpsFromDelta <$> (applyMsg (client this) message).2))).
Proof.
  cbn zeta.
  stash_cases this rawMessage; intros ?; try done.
  repeat case_decide; try lia; try done.
Qed.

Lemma stash_next this rawMessage :
  next (objects (processMergeTreeMsg_stash this rawMessage).1)
  = if needsTransformation (parseHandles (deref (objects this) rawMessage))
    then S (S (next (objects this))) else S (next (objects this)).
Proof. stash_cases this rawMessage; reflexivity. Qed.

Lemma stash_others this rawMessage :
  let this' := (processMergeTreeMsg_stash this rawMessage).1 in
  isLoaded this' = isLoaded this ∧ loadedDeferred this' = loadedDeferred this
  ∧ submitted this' = submitted this ∧ intervalMapKernel this' = intervalMapKernel this
  ∧ client this' = (applyMsg (client this) (parseHandles (deref (objects this) rawMessage))).1.
Proof. cbn zeta. stash_cases this rawMessage; done. Qed.

(** The entry [processMergeTreeMsg] stores for a message. *)
Lemma historyBuffer_stash this rawMessage :
  bufferAllocated this →
  let message := parseHandles (deref (objects this) rawMessage) in
  historyBuffer (processMergeTreeMsg_stash this rawMessage).1
  = historyBuffer this ++
    [if needsTransformation message
     then set_contents
            (set_referenceSequenceNumber message (sequenceNumber message - 1))
            (regroup (mjoin (createOpsFromDelta <$> (applyMsg (client this) message).2)))
     else message].
Proof.
  intros Halloc message. unfold historyBuffer.
  rewrite stash_buffer, fmap_app. f_equal.
  - apply Forall_fmap_ext. eapply Forall_impl; [exact Halloc |].
    intros r Hr. cbn beta in Hr. by apply stash_old.
  - cbn [fmap list_fmap]. f_equal. destruct (needsTransformation _) eqn:Hneeds.
    + by apply stash_copy.
    + apply stash_message_object.
Qed.

Lemma bufferAllocated_stash this rawMessage :
  bufferAllocated this → bufferAllocated (processMergeTreeMsg_stash this rawMessage).1.
Proof.
  unfold bufferAllocated. intros Halloc.
  rewrite stash_buffer, stash_next. apply Forall_app. split.
  - eapply Forall_impl; [exact Halloc |]. intros r Hr. cbn beta in *.
    destruct (needsTransformation _); lia.
  - constructor; [| constructor]. destruct (needsTransformation _); lia.
Qed.

Lemma historyBuffer_processMinSequenceNumberChanged this minSeq :
  historyBuffer (processMinSequenceNumberChanged this minSeq)
  = drop (firstAbove minSeq (historyBuffer this)) (historyBuffer this).
Proof.
  unfold processMinSequenceNumberChanged, historyBuffer.
  rewrite scanIndex_firstAbove.
  destruct (firstAbove minSeq _) as [| n]; cbn; [done |].
  by rewrite fmap_drop.
Qed.

Lemma objects_processMinSequenceNumberChanged this minSeq :
  objects (processMinSequenceNumberChanged this minSeq) = objects this.
Proof.
  unfold processMinSequenceNumberChanged. by destruct (negb _).
Qed.


Lemma regroup_one (op : IMergeTreeOp) : regroup [op] = op.
Proof. reflexivity. Qed.

Lemma regroup_group (ops : list IMergeTreeOp) :
  length ops ≠ 1%nat → regroup ops = Group ops.
Proof. destruct ops as [| op [| op' ops]]; cbn; done. Qed.

Lemma needsTransformation_false m :
  needsTransformation m = false ↔ referenceSequenceNumber m = sequenceNumber m - 1.
Proof. unfold needsTransformation. rewrite negb_false_iff. apply Z.eqb_eq. Qed.

Lemma needsTransformation_true m :
  needsTransformation m = true ↔ referenceSequenceNumber m ≠ sequenceNumber m - 1.
Proof. unfold needsTransformation. rewrite negb_true_iff. apply Z.eqb_neq. Qed.

Lemma processMergeTreeMsg_eq this rawMessage :
  processMergeTreeMsg this rawMessage
  = let this1 := (processMergeTreeMsg_stash this rawMessage).1 in
    let message := (processMergeTreeMsg_stash this rawMessage).2 in
    if compactionDue this1 message
    then processMinSequenceNumberChanged this1
           (minimumSequenceNumber (deref (objects this1) message))
    else this1.
Proof.
  unfold processMergeTreeMsg.
  by destruct (processMergeTreeMsg_stash this rawMessage).
Qed.

(** Whatever the compaction step does, it leaves a suffix of the buffer
    as it was after the push. *)
Lemma historyBuffer_processMergeTreeMsg this rawMessage :
  ∃ index,
    historyBuffer (processMergeTreeMsg this rawMessage)
    = drop index (historyBuffer (processMergeTreeMsg_stash this rawMessage).1).
Proof.
  rewrite processMergeTreeMsg_eq. cbn zeta.
  destruct (compactionDue _ _).
  - eexists. apply historyBuffer_processMinSequenceNumberChanged.
  - by exists 0%nat.
Qed.

(** The test guarding the compaction step, read on the buffered
    messages. *)
Lemma compactionDue_values this (message : ref) :
  compactionDue this message
  = (20 <? length (historyBuffer this))%nat
    && match historyBuffer this !! 20%nat with
       | Some m20 =>
           sequenceNumber m20 <? minimumSequenceNumber (deref (objects this) message)
       | None => false
       end.
Proof.
  unfold compactionDue, historyBuffer.
  rewrite length_fmap, list_lookup_fmap.
  by destruct (messagesSinceMSNChange this !! 20%nat).
Qed.

(** The buffer [processMergeTreeMsg] leaves, in terms of the buffer
    after the push. *)
Lemma historyBuffer_processMergeTreeMsg_exact this rawMessage :
  let appended := historyBuffer (processMergeTreeMsg_stash this rawMessage).1 in
  let minSeq := minimumSequenceNumber (parseHandles (deref (objects this) rawMessage)) in
  historyBuffer (processMergeTreeMsg this rawMessage)
  = if (20 <? length appended)%nat
       && match appended !! 20%nat with
          | Some m20 => sequenceNumber m20 <? minSeq
          | None => false
          end
    then drop (firstAbove minSeq appended) appended
    else appended.
Proof.
  cbn zeta. rewrite processMergeTreeMsg_eq. cbn zeta.
  rewrite compactionDue_values, stash_message, stash_message_object.
  destruct (_ && _); [| done].
  apply historyBuffer_processMinSequenceNumberChanged.
Qed.

(** A last message above [minSeq] survives the scan. *)
Lemma firstAbove_snoc minSeq msgs (entry : ISequencedDocumentMessage) :
  minSeq < sequenceNumber entry →
  drop (firstAbove minSeq (msgs ++ [entry])) (msgs ++ [entry])
  = drop (firstAbove minSeq msgs) msgs ++ [entry].
Proof.
  intros Habove. induction msgs as [| m rest IH]; cbn.
  - by replace (sequenceNumber entry >? minSeq) with true by lia.
  - by destruct (sequenceNumber m >? minSeq).
Qed.

(** C1. [processMergeTreeMsg] appends exactly one entry to
    [messagesSinceMSNChange]: the buffer it leaves is the old buffer
    followed by that entry, after the compaction step where that step is
    due.  With fewer than 20 messages buffered nothing is dropped, and
    the entry itself is never dropped when the message's minimum sequence
    number is below its sequence number.  If the message's
    [referenceSequenceNumber] equals its [sequenceNumber - 1], the entry
    is the message itself, unchanged.  Otherwise it is a copy whose
    [referenceSequenceNumber] is [sequenceNumber - 1] and whose contents
    are the ops re-expressed from the deltas captured while applying the
    message: the single op when exactly one was produced, a [Group] of
    them otherwise. *)
Theorem history_entry_direct_or_transformed this rawMessage :
  bufferAllocated this →
  let message := parseHandles (deref (objects this) rawMessage) in
  let captured := mjoin (createOpsFromDelta <$> (applyMsg (client this) message).2) in
  let minSeq := minimumSequenceNumber message in
  ∃ entry,
    (referenceSequenceNumber message = sequenceNumber message - 1 →
       entry = message)
    ∧ (referenceSequenceNumber message ≠ sequenceNumber message - 1 →
         clientId entry = clientId message
         ∧ sequenceNumber entry = sequenceNumber message
         ∧ minimumSequenceNumber entry = minimumSequenceNumber message
         ∧ referenceSequenceNumber entry = sequenceNumber message - 1
         ∧ (∀ op, captured = [op] → contents entry = op)
         ∧ (length captured ≠ 1%nat → contents entry = Group captured))
    ∧ historyBuffer (processMergeTreeMsg this rawMessage)
      = (let appended := historyBuffer this ++ [entry] in
         if (20 <? length appended)%nat
            && match appended !! 20%nat with
               | Some m20 => sequenceNumber m20 <? minSeq
               | None => false
               end
         then drop (firstAbove minSeq appended) appended
         else appended)
    ∧ ((length (historyBuffer this) < 20)%nat →
         historyBuffer (processMergeTreeMsg this rawMessage)
         = historyBuffer this ++ [entry])
    ∧ (minSeq < sequenceNumber message →
         ∃ kept,
           historyBuffer (processMergeTreeMsg this rawMessage) = kept ++ [entry]
           ∧ kept `suffix_of` historyBuffer this).
Proof.
  intros Halloc message captured minSeq.
  pose proof (historyBuffer_processMergeTreeMsg_exact this rawMessage) as Hfinal.
  cbn zeta in Hfinal. rewrite historyBuffer_stash in Hfinal by done.
  fold message captured minSeq in Hfinal.
  set (entry := if needsTransformation message
                then set_contents
                       (set_referenceSequenceNumber message (sequenceNumber message - 1))
                       (regroup captured)
                else message) in *.
  assert (sequenceNumber entry = sequenceNumber message) as Hseq
    by (unfold entry; by destruct (needsTransformation message)).
  exists entry.
  split; [| split; [| split; [exact Hfinal | split]]].
  - intros Hdirect. apply needsTransformation_false in Hdirect.
    unfold entry. by rewrite Hdirect.
  - intros Hneeds. apply needsTransformation_true in Hneeds.
    unfold entry. rewrite Hneeds. cbn. repeat split; try done.
    + intros op ->. reflexivity.
    + apply regroup_group.
  - intros Hshort. rewrite Hfinal. cbn zeta.
    replace (20 <? length (historyBuffer this ++ [entry]))%nat with false; [done |].
    symmetry. apply Nat.ltb_ge. rewrite length_app. cbn. lia.
  - intros Habove. rewrite Hfinal. cbn zeta.
    destruct (_ && _).
    + rewrite firstAbove_snoc by lia.
      eexists. split; [reflexivity | apply suffix_drop].
    + by exists (historyBuffer this).
Qed.

Lemma compactionDue_spec this rawMessage :
  bufferAllocated this →
  let this1 := (processMergeTreeMsg_stash this rawMessage).1 in
  let message := parseHandles (deref (objects this) rawMessage) in
  compactionDue this1 (processMergeTreeMsg_stash this rawMessage).2 = true
  ↔ (20 < length (historyBuffer this1))%nat
    ∧ ∃ m20, historyBuffer this1 !! 20%nat = Some m20
             ∧ sequenceNumber m20 < minimumSequenceNumber message.
Proof.
  intros Halloc this1 message. unfold compactionDue.
  rewrite stash_message. fold this1.
  replace (deref (objects this1) (next (objects this))) with message
    by (symmetry; apply stash_message_object).
  unfold historyBuffer. rewrite length_fmap, list_lookup_fmap.
  rewrite andb_true_iff, Nat.ltb_lt.
  destruct (messagesSinceMSNChange this1 !! 20%nat) as [m20 |]; cbn.
  - rewrite Z.ltb_lt. split.
    + intros [Hlen Hlt]. split; [done |]. by eexists.
    + intros [Hlen (m & [= <-] & Hlt)]. done.
  - split; [intros [_ ?]; done | intros [_ (m & ? & _)]; done].
Qed.

(** C3. After the append, [processMergeTreeMsg] runs the compaction pass
    [processMinSequenceNumberChanged] with the incoming message's
    [minimumSequenceNumber] exactly when the buffer holds more than 20
    messages and the one at index 20 has a sequence number strictly below
    that minimum; otherwise the buffer is left as appended.  The pass
    drops the messages before the first one whose sequence number is
    strictly greater than the minimum, and nothing else. *)
Theorem compaction_after_append this rawMessage :
  bufferAllocated this →
  let message := parseHandles (deref (objects this) rawMessage) in
  let minSeq := minimumSequenceNumber message in
  let this1 := (processMergeTreeMsg_stash this rawMessage).1 in
  let due :=
    (20 < length (historyBuffer this1))%nat
    ∧ ∃ m20, historyBuffer this1 !! 20%nat = Some m20 ∧ sequenceNumber m20 < minSeq in
  (due → processMergeTreeMsg this rawMessage
         = processMinSequenceNumberChanged this1 minSeq)
  ∧ (¬ due → processMergeTreeMsg this rawMessage = this1)
  ∧ ∃ index,
      historyBuffer (processMinSequenceNumberChanged this1 minSeq)
      = drop index (historyBuffer this1)
      ∧ Forall (λ m, sequenceNumber m ≤ minSeq) (take index (historyBuffer this1))
      ∧ (∀ m, historyBuffer this1 !! index = Some m → minSeq < sequenceNumber m).
Proof.
  intros Halloc message minSeq this1 due.
  pose proof (compactionDue_spec this rawMessage Halloc) as Hdue.
  cbn zeta in Hdue. fold this1 message minSeq due in Hdue.
  rewrite processMergeTreeMsg_eq. cbn zeta. fold this1.
  rewrite stash_message.
  replace (deref (objects this1) (next (objects this))) with message
    by (symmetry; apply stash_message_object).
  rewrite stash_message in Hdue.
  split; [| split].
  - intros Hd. apply Hdue in Hd. by rewrite Hd.
  - intros Hnd. destruct (compactionDue this1 _) eqn:Hc; [| done].
    exfalso. apply Hnd, Hdue. done.
  - exists (firstAbove minSeq (historyBuffer this1)). split; [| split].
    + apply historyBuffer_processMinSequenceNumberChanged.
    + apply firstAbove_take.
    + apply firstAbove_lookup.
Qed.


Lemma StronglySorted_drop {A} (R : relation A) (l : list A) n :
  StronglySorted R l → StronglySorted R (drop n l).
Proof.
  intros Hs. rewrite <- (take_drop n l) in Hs.
  by apply StronglySorted_app_1_r in Hs.
Qed.

(** On a buffer in increasing order, nothing at or below [minSeq]
    survives the scan. *)
Lemma firstAbove_drop minSeq msgs :
  StronglySorted Z.lt (sequenceNumber <$> msgs) →
  Forall (λ m, minSeq < sequenceNumber m) (drop (firstAbove minSeq msgs) msgs).
Proof.
  induction msgs as [| m rest IH]; cbn; [constructor |].
  intros Hs. apply StronglySorted_cons in Hs as [Hhd Hs].
  destruct (sequenceNumber m >? minSeq) eqn:Hgt; cbn.
  - constructor; [lia |].
    apply (proj1 (Forall_fmap _ _ _)) in Hhd.
    eapply Forall_impl; [exact Hhd |].
    intros m' Hm'. cbn in Hm'. lia.
  - by apply IH.
Qed.

Lemma bufferAllocated_processMinSequenceNumberChanged this minSeq :
  bufferAllocated this → bufferAllocated (processMinSequenceNumberChanged this minSeq).
Proof.
  unfold bufferAllocated, processMinSequenceNumberChanged.
  destruct (negb _); cbn; [| done]. apply Forall_drop.
Qed.

Lemma gc_keeps_invariant this minSeq :
  increasing this →
  increasing (processMinSequenceNumberChanged this minSeq)
  ∧ aboveWatermark minSeq (processMinSequenceNumberChanged this minSeq)
  ∧ ∀ g, aboveWatermark g this →
         aboveWatermark g (processMinSequenceNumberChanged this minSeq).
Proof.
  unfold increasing, aboveWatermark. intros Hs.
  rewrite historyBuffer_processMinSequenceNumberChanged.
  split; [| split].
  - rewrite fmap_drop. by apply StronglySorted_drop.
  - by apply firstAbove_drop.
  - intros g. apply Forall_drop.
Qed.

Lemma stash_keeps_invariant this rawMessage g :
  bufferAllocated this → increasing this → aboveWatermark g this →
  let message := parseHandles (deref (objects this) rawMessage) in
  Forall (λ m, sequenceNumber m < sequenceNumber message) (historyBuffer this) →
  g < sequenceNumber message →
  increasing (processMergeTreeMsg_stash this rawMessage).1
  ∧ aboveWatermark g (processMergeTreeMsg_stash this rawMessage).1.
Proof.
  intros Halloc Hs Hg message Hord Hnew. unfold increasing, aboveWatermark in *.
  rewrite historyBuffer_stash by done. fold message.
  assert (sequenceNumber
            (if needsTransformation message
             then set_contents
                    (set_referenceSequenceNumber message (sequenceNumber message - 1))
                    (regroup (mjoin (createOpsFromDelta <$>
                                       (applyMsg (client this) message).2)))
             else message) = sequenceNumber message) as Hseq
    by (by destruct (needsTransformation message)).
  split.
  - rewrite fmap_app. apply StronglySorted_app_2; [| done |].
    + intros x1 x2 Hx1 Hx2. cbn [fmap list_fmap] in Hx2.
      apply list_elem_of_singleton in Hx2. subst x2. rewrite Hseq.
      apply list_elem_of_fmap in Hx1 as (m & -> & Hm).
      by eapply Forall_forall in Hord.
    + cbn [fmap list_fmap]. repeat constructor.
  - apply Forall_app. split; [done |]. constructor; [| constructor].
    by rewrite Hseq.
Qed.

Lemma historyBuffer_snapshotMergeTree_sequenceNumbers this deltaManager :
  sequenceNumber <$> historyBuffer (snapshotMergeTree this deltaManager).1
  = sequenceNumber <$>
      historyBuffer
        (if isLoaded this
         then match deltaManager with
              | Some dm => processMinSequenceNumberChanged this (dm_minimumSequenceNumber dm)
              | None => this
              end
         else this).
Proof.
  unfold snapshotMergeTree.
  destruct (isLoaded this); cbn [negb]; [| done].
  destruct deltaManager as [dm |].
  - destruct (negb (_ =? _)); cbn [fst].
    + unfold historyBuffer. cbn. done.
    + unfold historyBuffer. cbn [objects messagesSinceMSNChange set_objects set_client].
      rewrite <- !list_fmap_compose. apply list_fmap_ext.
      intros i r _. cbn. apply stampMinimumSequenceNumber_sequenceNumber.
  - cbn [negb fst]. unfold historyBuffer. cbn [objects messagesSinceMSNChange set_objects].
    rewrite <- !list_fmap_compose. apply list_fmap_ext.
    intros i r _. cbn. apply stampMinimumSequenceNumber_sequenceNumber.
Qed.


Lemma aboveWatermark_sequenceNumbers g this :
  aboveWatermark g this ↔ Forall (Z.lt g) (sequenceNumber <$> historyBuffer this).
Proof. unfold aboveWatermark. by rewrite Forall_fmap. Qed.

Lemma bufferAllocated_snapshotMergeTree this deltaManager :
  bufferAllocated this → bufferAllocated (snapshotMergeTree this deltaManager).1.
Proof.
  intros Halloc. unfold snapshotMergeTree.
  destruct (isLoaded this); cbn [negb]; [| done].
  destruct deltaManager as [dm |].
  - pose proof (bufferAllocated_processMinSequenceNumberChanged this
                  (dm_minimumSequenceNumber dm) Halloc) as Hgc.
    destruct (negb (_ =? _)); cbn [fst]; unfold bufferAllocated in *;
      cbn [objects messagesSinceMSNChange set_objects set_client] in *.
    + done.
    + by rewrite stampMinimumSequenceNumber_next.
  - cbn [negb fst]. unfold bufferAllocated in *.
    cbn [objects messagesSinceMSNChange set_objects set_client].
    by rewrite stampMinimumSequenceNumber_next.
Qed.

(** C4. On a history buffer in strictly increasing sequence-number order,
    every message left by [processMinSequenceNumberChanged minSeq] has a
    sequence number strictly greater than [minSeq].  The operations that
    change the buffer keep it so: [processMinSequenceNumberChanged],
    [processMergeTreeMsg] (for a message delivered in order) and
    [snapshotMergeTree] keep the buffer increasing and above the
    watermark it was above, and above the new watermark whenever they
    compact. *)
Theorem history_buffer_above_watermark this :
  bufferAllocated this → increasing this →
  (∀ minSeq,
     let this' := processMinSequenceNumberChanged this minSeq in
     aboveWatermark minSeq this' ∧ increasing this' ∧ bufferAllocated this')
  ∧ (∀ g rawMessage,
       aboveWatermark g this →
       let message := parseHandles (deref (objects this) rawMessage) in
       Forall (λ m, sequenceNumber m < sequenceNumber message) (historyBuffer this) →
       g < sequenceNumber message →
       let this1 := (processMergeTreeMsg_stash this rawMessage).1 in
       let this' := processMergeTreeMsg this rawMessage in
       increasing this' ∧ bufferAllocated this' ∧ aboveWatermark g this'
       ∧ (compactionDue this1 (processMergeTreeMsg_stash this rawMessage).2 = true →
            aboveWatermark (minimumSequenceNumber message) this'))
  ∧ (∀ g deltaManager,
       aboveWatermark g this →
       let this' := (snapshotMergeTree this deltaManager).1 in
       increasing this' ∧ bufferAllocated this' ∧ aboveWatermark g this'
       ∧ (∀ dm, isLoaded this = true → deltaManager = Some dm →
            aboveWatermark (dm_minimumSequenceNumber dm) this')).
Proof.
  intros Halloc Hs. split; [| split].
  - intros minSeq this'. subst this'.
    destruct (gc_keeps_invariant this minSeq Hs) as (Hs' & Hw & _).
    split; [done |]. split; [done |].
    by apply bufferAllocated_processMinSequenceNumberChanged.
  - intros g rawMessage Hg message Hord Hnew this1 this'.
    destruct (stash_keeps_invariant this rawMessage g Halloc Hs Hg Hord Hnew)
      as [Hs1 Hg1]. fold this1 in Hs1, Hg1.
    pose proof (bufferAllocated_stash this rawMessage Halloc) as Halloc1.
    fold this1 in Halloc1.
    subst this'. rewrite processMergeTreeMsg_eq. cbn zeta. fold this1.
    rewrite stash_message.
    replace (deref (objects this1) (next (objects this))) with message
      by (symmetry; apply stash_message_object).
    destruct (compactionDue this1 _).
    + destruct (gc_keeps_invariant this1 (minimumSequenceNumber message) Hs1)
        as (Hs' & Hw & Hkeep).
      split; [done |]. split; [| split; [by apply Hkeep | done]].
      by apply bufferAllocated_processMinSequenceNumberChanged.
    + split; [done |]. split; [done |]. split; [done |]. intros ?; done.
  - intros g deltaManager Hg this'. subst this'.
    unfold increasing. setoid_rewrite aboveWatermark_sequenceNumbers.
    rewrite historyBuffer_snapshotMergeTree_sequenceNumbers.
    split; [| split; [by apply bufferAllocated_snapshotMergeTree | split]].
    + destruct (isLoaded this); [| done]. destruct deltaManager as [dm |]; [| done].
      by destruct (gc_keeps_invariant this (dm_minimumSequenceNumber dm) Hs) as (? & _).
    + apply aboveWatermark_sequenceNumbers.
      destruct (isLoaded this); [| done]. destruct deltaManager as [dm |]; [| done].
      destruct (gc_keeps_invariant this (dm_minimumSequenceNumber dm) Hs) as (_ & _ & Hkeep).
      by apply Hkeep.
    + intros dm -> ->. apply aboveWatermark_sequenceNumbers.
      by destruct (gc_keeps_invariant this (dm_minimumSequenceNumber dm) Hs) as (_ & ? & _).
Qed.


(** ** [createOpsFromDelta] *)

(** Every op built for an event has the event's type, so the last op
    inspected by a later iteration is one pushed by the same [case]. *)
Lemma createOpsFromDelta_body_opType deltaOperation ops r :
  deltaOperation ≠ GROUP →
  Forall (λ op, opType op = deltaOperation) ops →
  Forall (λ op, opType op = deltaOperation)
    (createOpsFromDelta_body deltaOperation ops r).
Proof.
  intros Hng Hops. unfold createOpsFromDelta_body.
  destruct deltaOperation; [| | | done].
  - apply Forall_app. split; [done | by repeat constructor].
  - destruct (ops !! _) as [[| lpos1 lpos2 | |] |] eqn:Hlast;
      try (apply Forall_app; split; [done | by repeat constructor]).
    destruct (lpos1 =? position r).
    + by apply Forall_insert.
    + apply Forall_app. split; [done | by repeat constructor].
  - destruct (ops !! _) as [[| | lpos1 lpos2 lprops lcombiningOp |] |] eqn:Hlast;
      try (apply Forall_app; split; [done | by repeat constructor]).
    destruct ((lpos2 =? position r) && _).
    + by apply Forall_insert.
    + apply Forall_app. split; [done | by repeat constructor].
Qed.

Lemma createOpsFromDelta_opType event :
  Forall (λ op, opType op = deltaOperation event) (createOpsFromDelta event).
Proof.
  unfold createOpsFromDelta.
  destruct (decide (deltaOperation event = GROUP)) as [Hg | Hng].
  - rewrite Hg. induction (ranges event) as [| r rs IH]; [constructor | exact IH].
  - assert (∀ rs ops, Forall (λ op, opType op = deltaOperation event) ops →
              Forall (λ op, opType op = deltaOperation event)
                (foldl (createOpsFromDelta_body (deltaOperation event)) ops rs))
      as Hfold.
    { induction rs as [| r rs IH]; intros ops Hops; [done |].
      cbn [foldl]. apply IH. by apply createOpsFromDelta_body_opType. }
    apply Hfold. constructor.
Qed.

(** An iteration adds at most one op and removes none. *)
Lemma createOpsFromDelta_body_length deltaOperation ops r :
  (length ops ≤ length (createOpsFromDelta_body deltaOperation ops r)
   ≤ S (length ops))%nat.
Proof.
  unfold createOpsFromDelta_body. destruct deltaOperation.
  - rewrite length_app. cbn. lia.
  - destruct (ops !! _) as [[| lpos1 lpos2 | |] |];
      try (rewrite length_app; cbn; lia).
    destruct (lpos1 =? position r);
      [rewrite length_insert | rewrite length_app; cbn]; lia.
  - destruct (ops !! _) as [[| | lpos1 lpos2 lprops lcombiningOp |] |];
      try (rewrite length_app; cbn; lia).
    destruct ((lpos2 =? position r) && _);
      [rewrite length_insert | rewrite length_app; cbn]; lia.
  - lia.
Qed.

(** ** Local edits *)

(** [removeRange] returns the client's answer and submits it when there
    is one. *)
Lemma removeRange_forwards this start end_ :
  (removeRange this start end_).2 = (removeRangeLocal (client this) start end_).2
  ∧ submitted (removeRange this start end_).1
    = submitted this ++
      match (removeRangeLocal (client this) start end_).2 with
      | Some op => [makeHandlesSerializable op]
      | None => []
      end.
Proof.
  unfold removeRange.
  destruct (removeRangeLocal _ _ _) as [c [op |]]; cbn.
  - done.
  - by rewrite app_nil_r.
Qed.

(** [resolveRemoteClientPosition] returns the client's answer. *)
Lemma resolveRemoteClientPosition_forwards this pos refSeq remoteClientId :
  resolveRemoteClientPosition this pos refSeq remoteClientId
  = client_resolveRemoteClientPosition (client this) pos refSeq remoteClientId.
Proof. reflexivity. Qed.

(** ** Positions *)

(** C10. [localRefToPos] returns the reference's offset plus the current
    position of its segment while the reference has a segment, and [-1]
    once the segment is unset. *)
Theorem localRefToPos_anchored_or_sentinel this (localRef : LocalReference) :
  (∀ segment, lref_segment localRef = Some segment →
     localRefToPos this localRef
     = lref_offset localRef + client_getPosition (client this) segment)
  ∧ (lref_segment localRef = None → localRefToPos this localRef = -1).
Proof.
  unfold localRefToPos, getPosition. split.
  - intros segment ->. reflexivity.
  - intros ->. reflexivity.
Qed.

(** ** Annotate ops *)

(** What [annotateRange] hands to the transport: the client's op, if any. *)
Lemma submitted_annotateRange this start end_ props combiningOp :
  submitted (annotateRange this start end_ props combiningOp)
  = submitted this ++
    match (annotateRangeLocal (client this) start end_ props combiningOp).2 with
    | Some op => [makeHandlesSerializable op]
    | None => []
    end.
Proof.
  unfold annotateRange.
  destruct (annotateRangeLocal _ _ _ _ _) as [c [op |]]; cbn.
  - reflexivity.
  - by rewrite app_nil_r.
Qed.

(** Two contiguous annotated ranges with matching properties become one
    op over the combined range. *)
Lemma createOpsFromDelta_annotate_pair (r1 r2 : ISequenceDeltaRange) :
  position r2 = position r1 + cachedLength (segment r1) →
  matchProperties (annotatedProps r1) (annotatedProps r2) = true →
  createOpsFromDelta {| deltaOperation := ANNOTATE; ranges := [r1; r2] |}
  = [Annotate (position r1)
       (position r1 + cachedLength (segment r1) + cachedLength (segment r2))
       (annotatedProps r1) None].
Proof.
  intros Hpos Hmatch. unfold createOpsFromDelta. cbn.
  rewrite Hmatch, Hpos, Z.eqb_refl. reflexivity.
Qed.

Lemma lookup_snoc_last (ops' : list IMergeTreeOp) op :
  (ops' ++ [op]) !! (length (ops' ++ [op]) - 1)%nat = Some op.
Proof.
  rewrite length_app. cbn [length].
  replace (length ops' + 1 - 1)%nat with (length ops' + 0)%nat by lia.
  by rewrite lookup_app_r, Nat.add_0_r, Nat.sub_diag by lia.
Qed.

(** One more range at the end of an event is one more iteration. *)
Lemma createOpsFromDelta_snoc deltaOperation rs r :
  createOpsFromDelta {| deltaOperation := deltaOperation; ranges := rs ++ [r] |}
  = createOpsFromDelta_body deltaOperation
      (createOpsFromDelta {| deltaOperation := deltaOperation; ranges := rs |}) r.
Proof. unfold createOpsFromDelta. cbn. by rewrite foldl_app. Qed.

Lemma createOpsFromDelta_app deltaOperation rs1 rs2 :
  createOpsFromDelta {| deltaOperation := deltaOperation; ranges := rs1 ++ rs2 |}
  = foldl (createOpsFromDelta_body deltaOperation)
      (createOpsFromDelta {| deltaOperation := deltaOperation; ranges := rs1 |}) rs2.
Proof. unfold createOpsFromDelta. cbn. by rewrite foldl_app. Qed.

(** The annotate case extends the last op when it ends where the range
    starts and its properties match. *)
Lemma annotate_body_extends ops' lpos1 lpos2 lprops lcombiningOp r :
  lpos2 = position r →
  matchProperties lprops (annotatedProps r) = true →
  createOpsFromDelta_body ANNOTATE
    (ops' ++ [Annotate lpos1 lpos2 lprops lcombiningOp]) r
  = ops' ++ [Annotate lpos1 (lpos2 + cachedLength (segment r)) lprops lcombiningOp].
Proof.
  intros -> Hmatch. unfold createOpsFromDelta_body.
  rewrite lookup_snoc_last, Z.eqb_refl, Hmatch. cbn [andb].
  apply insert_last_snoc.
Qed.

(** Otherwise it appends an op for the range. *)
Lemma annotate_body_pushes ops r :
  (ops = []
   ∨ ∃ ops' lpos1 lpos2 lprops lcombiningOp,
       ops = ops' ++ [Annotate lpos1 lpos2 lprops lcombiningOp]
       ∧ (lpos2 ≠ position r ∨ matchProperties lprops (annotatedProps r) = false)) →
  createOpsFromDelta_body ANNOTATE ops r
  = ops ++ [Annotate (position r) (position r + cachedLength (segment r))
              (annotatedProps r) None].
Proof.
  unfold createOpsFromDelta_body.
  intros [-> | (ops' & lpos1 & lpos2 & lprops & lcombiningOp & -> & Hno)]; [done |].
  rewrite lookup_snoc_last.
  destruct Hno as [Hpos | Hmatch].
  - apply Z.eqb_neq in Hpos. by rewrite Hpos.
  - by rewrite Hmatch, andb_false_r.
Qed.

(** Whatever was built before, after an annotated range the last op ends
    where the range ends, with the range's properties or properties that
    matched them. *)
Lemma annotate_body_last ops r :
  ∃ ops' lpos1 lprops lcombiningOp,
    createOpsFromDelta_body ANNOTATE ops r
    = ops' ++ [Annotate lpos1 (position r + cachedLength (segment r)) lprops lcombiningOp]
    ∧ (lprops = annotatedProps r ∨ matchProperties lprops (annotatedProps r) = true).
Proof.
  unfold createOpsFromDelta_body.
  destruct (ops !! _) as [[| | lpos1 lpos2 lprops lcombiningOp |] |] eqn:Hlast;
    try (exists ops, (position r), (annotatedProps r), None; split; [done | by left]).
  destruct (lpos2 =? position r) eqn:Hpos; cbn [andb];
    [| exists ops, (position r), (annotatedProps r), None; split; [done | by left]].
  destruct (matchProperties lprops (annotatedProps r)) eqn:Hmatch;
    [| exists ops, (position r), (annotatedProps r), None; split; [done | by left]].
  apply Z.eqb_eq in Hpos. subst lpos2.
  apply lookup_last_snoc in Hlast as [ops' ->].
  rewrite insert_last_snoc.
  exists ops', lpos1, lprops, lcombiningOp. split; [done | by right].
Qed.

Lemma foldl_body_length deltaOperation rs : ∀ ops,
  (length (foldl (createOpsFromDelta_body deltaOperation) ops rs)
   ≤ length ops + length rs)%nat.
Proof.
  induction rs as [| r rs IH]; intros ops; cbn [foldl length]; [lia |].
  etrans; [apply IH |].
  pose proof (createOpsFromDelta_body_length deltaOperation ops r). lia.
Qed.

(** Two contiguous ranges anywhere in an annotate event. *)
Lemma annotate_pair_anywhere (pre post : list ISequenceDeltaRange) (r1 r2 : ISequenceDeltaRange) :
  (∀ a b c, matchProperties a b = true → matchProperties b c = true →
            matchProperties a c = true) →
  position r2 = position r1 + cachedLength (segment r1) →
  matchProperties (annotatedProps r1) (annotatedProps r2) = true →
  (∃ ops' lpos1 lprops lcombiningOp,
     createOpsFromDelta {| deltaOperation := ANNOTATE; ranges := pre ++ [r1] |}
     = ops' ++ [Annotate lpos1 (position r1 + cachedLength (segment r1))
                  lprops lcombiningOp]
     ∧ createOpsFromDelta {| deltaOperation := ANNOTATE; ranges := pre ++ [r1; r2] |}
       = ops' ++ [Annotate lpos1 (position r2 + cachedLength (segment r2))
                    lprops lcombiningOp])
  ∧ (length (createOpsFromDelta
               {| deltaOperation := ANNOTATE; ranges := pre ++ [r1; r2] ++ post |})
     < length (pre ++ [r1; r2] ++ post))%nat.
Proof.
  intros Htrans Hpos Hmatch.
  destruct (annotate_body_last
              (createOpsFromDelta {| deltaOperation := ANNOTATE; ranges := pre |}) r1)
    as (ops' & lpos1 & lprops & lcombiningOp & Hr1 & Hprops).
  rewrite <- createOpsFromDelta_snoc in Hr1.
  assert (matchProperties lprops (annotatedProps r2) = true) as Hmatch'.
  { destruct Hprops as [-> | Hm]; [done | by apply (Htrans _ (annotatedProps r1))]. }
  assert (createOpsFromDelta {| deltaOperation := ANNOTATE; ranges := pre ++ [r1; r2] |}
          = ops' ++ [Annotate lpos1 (position r2 + cachedLength (segment r2))
                       lprops lcombiningOp]) as Hr2.
  { replace (pre ++ [r1; r2]) with ((pre ++ [r1]) ++ [r2]) by (by rewrite <- app_assoc).
    rewrite createOpsFromDelta_snoc, Hr1, Hpos.
    by apply annotate_body_extends. }
  split; [by exists ops', lpos1, lprops, lcombiningOp |].
  rewrite app_assoc, createOpsFromDelta_app.
  eapply Nat.le_lt_trans; [apply foldl_body_length |].
  pose proof (foldl_body_length ANNOTATE (pre ++ [r1]) []) as Hlen.
  change (foldl (createOpsFromDelta_body ANNOTATE) [] (pre ++ [r1]))
    with (createOpsFromDelta {| deltaOperation := ANNOTATE; ranges := pre ++ [r1] |})
    in Hlen.
  rewrite Hr1 in Hlen. rewrite Hr2.
  rewrite !length_app in Hlen. rewrite !length_app. cbn [length] in Hlen |- *. lia.
Qed.

(** C8 (as amended). Coalescing happens where captured deltas are
    re-expressed as ops.  Within one annotate event, at every range:
    when the last op built so far ends where the range starts and its
    properties match the range's resulting properties,
    [createOpsFromDelta] extends that op over the range and adds none;
    otherwise it appends an op for the range.  So two contiguous ranges
    with matching resulting properties, wherever they stand in the
    event, are covered by one annotate op, and the event yields fewer ops
    than ranges; an event of just two such ranges yields exactly one op
    over the combined range.  [annotateRange] itself submits the op
    returned by the client for that call, unchanged in number: one
    message per call that produced an op. *)
Theorem annotate_coalescing_is_in_createOpsFromDelta :
  (∀ (rs : list ISequenceDeltaRange) (r : ISequenceDeltaRange)
     ops' lpos1 lpos2 lprops lcombiningOp,
     createOpsFromDelta {| deltaOperation := ANNOTATE; ranges := rs |}
     = ops' ++ [Annotate lpos1 lpos2 lprops lcombiningOp] →
     lpos2 = position r →
     matchProperties lprops (annotatedProps r) = true →
     createOpsFromDelta {| deltaOperation := ANNOTATE; ranges := rs ++ [r] |}
     = ops' ++ [Annotate lpos1 (lpos2 + cachedLength (segment r)) lprops lcombiningOp])
  ∧ (∀ (rs : list ISequenceDeltaRange) (r : ISequenceDeltaRange),
       (createOpsFromDelta {| deltaOperation := ANNOTATE; ranges := rs |} = []
        ∨ ∃ ops' lpos1 lpos2 lprops lcombiningOp,
            createOpsFromDelta {| deltaOperation := ANNOTATE; ranges := rs |}
            = ops' ++ [Annotate lpos1 lpos2 lprops lcombiningOp]
            ∧ (lpos2 ≠ position r
               ∨ matchProperties lprops (annotatedProps r) = false)) →
       createOpsFromDelta {| deltaOperation := ANNOTATE; ranges := rs ++ [r] |}
       = createOpsFromDelta {| deltaOperation := ANNOTATE; ranges := rs |}
         ++ [Annotate (position r) (position r + cachedLength (segment r))
               (annotatedProps r) None])
  ∧ (∀ (pre post : list ISequenceDeltaRange) (r1 r2 : ISequenceDeltaRange),
       (∀ a b c, matchProperties a b = true → matchProperties b c = true →
                 matchProperties a c = true) →
       position r2 = position r1 + cachedLength (segment r1) →
       matchProperties (annotatedProps r1) (annotatedProps r2) = true →
       (∃ ops' lpos1 lprops lcombiningOp,
          createOpsFromDelta {| deltaOperation := ANNOTATE; ranges := pre ++ [r1] |}
          = ops' ++ [Annotate lpos1 (position r1 + cachedLength (segment r1))
                       lprops lcombiningOp]
          ∧ createOpsFromDelta
              {| deltaOperation := ANNOTATE; ranges := pre ++ [r1; r2] |}
            = ops' ++ [Annotate lpos1 (position r2 + cachedLength (segment r2))
                         lprops lcombiningOp])
       ∧ (length (createOpsFromDelta
                    {| deltaOperation := ANNOTATE;
                       ranges := pre ++ [r1; r2] ++ post |})
          < length (pre ++ [r1; r2] ++ post))%nat)
  ∧ (∀ r1 r2 : ISequenceDeltaRange,
       position r2 = position r1 + cachedLength (segment r1) →
       matchProperties (annotatedProps r1) (annotatedProps r2) = true →
       createOpsFromDelta {| deltaOperation := ANNOTATE; ranges := [r1; r2] |}
       = [Annotate (position r1)
            (position r1 + cachedLength (segment r1) + cachedLength (segment r2))
            (annotatedProps r1) None])
  ∧ (∀ this start end_ props combiningOp,
       submitted (annotateRange this start end_ props combiningOp)
       = submitted this ++
         match (annotateRangeLocal (client this) start end_ props combiningOp).2 with
         | Some op => [makeHandlesSerializable op]
         | None => []
         end).
Proof.
  refine (conj _ (conj _ (conj _ (conj _ _)))).
  - intros rs r ops' lpos1 lpos2 lprops lcombiningOp Hrs Hpos Hmatch.
    rewrite createOpsFromDelta_snoc, Hrs. by apply annotate_body_extends.
  - intros rs r Hcase. rewrite createOpsFromDelta_snoc.
    by apply annotate_body_pushes.
  - apply annotate_pair_anywhere.
  - apply createOpsFromDelta_annotate_pair.
  - apply submitted_annotateRange.
Qed.

(** ** Loading *)

Lemma loadedDeferred_loadFinished this error :
  loadedDeferred (loadFinished this error)
  = if truthy error then Deferred_reject (loadedDeferred this) error
    else Deferred_resolve (loadedDeferred this).
Proof. unfold loadFinished. by destruct (truthy error). Qed.

(** A failure to read the header blob leaves the object as it was: the
    promise returned by [loadCore] rejects, [loadFinished] is not
    reached. *)
Lemma loadCore_header_unreadable this branchId storage error :
  storage snapshotFileName = Throw error →
  loadCore this branchId storage = (this, Throw error).
Proof. intros Hread. unfold loadCore. by rewrite Hread. Qed.

(** A header blob that cannot be parsed behaves alike. *)
Lemma loadCore_header_corrupt this branchId storage header error :
  storage snapshotFileName = Normal header →
  populate (intervalMapKernel this)
    (if truthy (JStr header) then Some (fromBase64ToUtf8 header) else None)
  = Throw error →
  loadCore this branchId storage = (this, Throw error).
Proof. intros Hread Hpop. unfold loadCore. by rewrite Hread, Hpop. Qed.

(** A failure of the snapshot loader is caught and passed to
    [loadFinished]. *)
Lemma loadCore_loader_failure this branchId storage header kernel error :
  storage snapshotFileName = Normal header →
  populate (intervalMapKernel this)
    (if truthy (JStr header) then Some (fromBase64ToUtf8 header) else None)
  = Normal kernel →
  loader_initialize (client this) branchId (ContentObjectStorage storage) = Throw error →
  loadedDeferred this = Pending → truthy error = true →
  loadedDeferred (loadCore this branchId storage).1 = Rejected error
  ∧ (loadCore this branchId storage).2 = Normal ().
Proof.
  intros Hread Hpop Hinit Hpending Htruthy. unfold loadCore.
  rewrite Hread, Hpop. cbn. rewrite Hinit. cbn.
  rewrite loadedDeferred_loadFinished, Htruthy. cbn. by rewrite Hpending.
Qed.

End SequenceProperties.

(* ===================================================================== *)
(** * Properties that rest on the Collaboration Client                    *)
(* ===================================================================== *)

Section OverCollaborationClient.

Import Sequence.

Context {Store Kernel : Type}.
Context `{!SegmentStore Store, !MapKernel Kernel, !Helpers}.
Implicit Types this : SharedSegmentSequence (CollaborationClient Store) Kernel.

Lemma set_client_same this : set_client this (client this) = this.
Proof. by destruct this. Qed.

(** C7. [removeRange(start, end)] with [start = end] changes nothing: the
    object is as before, in particular nothing was added to the ops
    handed to the transport, and the call returns no op. *)
Theorem removeRange_empty_range_is_noop this (start end_ : Z) :
  start = end_ →
  (removeRange this start end_).2 = None
  ∧ submitted (removeRange this start end_).1 = submitted this
  ∧ (removeRange this start end_).1 = this.
Proof.
  intros ->. unfold removeRange. cbn. unfold spec_removeRangeLocal.
  rewrite Z.leb_refl. cbn. by rewrite set_client_same.
Qed.

(** C5. [resolveRemoteClientPosition] succeeds with a local position when
    the remote reference sequence number is at or above the client's
    minimum sequence number, and returns the failure sentinel, not a
    position, when it is below. *)
Theorem resolveRemoteClientPosition_gc_safety this (pos refSeq : Z) (remoteClientId : string) :
  (collabWindow_minSeq (client this) ≤ refSeq →
     ∃ localPosition,
       resolveRemoteClientPosition this pos refSeq remoteClientId = Some localPosition)
  ∧ (refSeq < collabWindow_minSeq (client this) →
       resolveRemoteClientPosition this pos refSeq remoteClientId = None).
Proof.
  unfold resolveRemoteClientPosition. cbn. unfold spec_resolveRemoteClientPosition.
  split; intros Hcmp.
  - destruct (refSeq <? _) eqn:Hlt; [lia | by eexists].
  - destruct (refSeq <? _) eqn:Hlt; [done | lia].
Qed.

End OverCollaborationClient.

(* ===================================================================== *)
(** * The properties at work on sample data                               *)
(* ===================================================================== *)

Section Samples.

Import Sequence Sample.

Lemma catchingUp_bufferAllocated : bufferAllocated catchingUp.
Proof. unfold bufferAllocated. cbn. repeat constructor. Qed.

Lemma catchingUp_increasing : increasing catchingUp.
Proof. unfold increasing. cbn. repeat constructor. Qed.

Lemma busy_bufferAllocated : bufferAllocated busy.
Proof.
  unfold bufferAllocated. apply Forall_forall. intros r Hr.
  change (messagesSinceMSNChange busy) with (seq 0 22) in Hr.
  apply elem_of_seq in Hr. cbn. lia.
Qed.

(** Removed segments that close up at the same position become one
    remove op; a gap starts a new one. *)
Example createOpsFromDelta_remove :
  createOpsFromDelta (Client := CollaborationClient ScriptedStore)
    {| deltaOperation := REMOVE;
       ranges := [removedRange 4 2; removedRange 4 3; removedRange 9 1] |}
  = [Remove 4 9; Remove 9 10].
Proof. reflexivity. Qed.

(** Annotated ranges that do not touch stay two ops. *)
Example createOpsFromDelta_annotate_apart :
  createOpsFromDelta (Client := CollaborationClient ScriptedStore)
    {| deltaOperation := ANNOTATE; ranges := [boldRange 0 2; boldRange 3 1] |}
  = [Annotate 0 2 bold None; Annotate 3 4 bold None].
Proof. vm_compute. reflexivity. Qed.

(** The scenario of the design document: on client A, message 2 is
    stored in its transformed form, based on message 1. *)
Example scenario_message_2_is_transformed :
  historyBuffer (processMergeTreeMsg scenario 1%nat)
  = [ {| clientId := "A"; sequenceNumber := 1; referenceSequenceNumber := 0;
         minimumSequenceNumber := 0; contents := Insert 0 (JStr "hello") |};
      msg 2 1 0 (Insert 5 (JStr "X")) ].
Proof. vm_compute. reflexivity. Qed.

(** A message that follows its predecessor directly is stored as it is. *)
Example direct_message_is_stored_unchanged :
  historyBuffer (processMergeTreeMsg inStep 1%nat)
  = [msg 6 5 3 (Remove 0 1); msg 7 6 3 (Remove 2 3)].
Proof. vm_compute. reflexivity. Qed.

(** Pausing twice and resuming once keeps the queue paused. *)
Example one_resume_is_not_enough :
  DeltaQueueProxy.run DeltaQueueProxy.new
    [DeltaQueueProxy.SystemPause; DeltaQueueProxy.Pause; DeltaQueueProxy.Resume]
  = (DeltaQueueProxy.mk true false,
     [DeltaQueueProxy.QPause; DeltaQueueProxy.QPause]).
Proof. reflexivity. Qed.

Lemma inStep_bufferAllocated : bufferAllocated inStep.
Proof. unfold bufferAllocated. cbn. repeat constructor. Qed.

(** In [catchingUp], message 7 skipped messages 5 and 6: after
    [processMergeTreeMsg] the buffer holds message 6 and a copy of
    message 7 based on message 6, whose contents are the one coalesced
    annotate op.  In [inStep] it holds message 6 and message 7 itself. *)
Lemma history_entry_direct_or_transformed_witness :
  (∃ entry,
     historyBuffer (processMergeTreeMsg catchingUp 1%nat)
     = [msg 6 5 3 (Remove 0 1); entry]
     ∧ referenceSequenceNumber entry = 6
     ∧ contents entry = Annotate 0 5 bold None)
  ∧ historyBuffer (processMergeTreeMsg inStep 1%nat)
    = [msg 6 5 3 (Remove 0 1); msg 7 6 3 (Remove 2 3)].
Proof.
  split.
  - destruct (history_entry_direct_or_transformed catchingUp 1%nat
                catchingUp_bufferAllocated) as (entry & _ & Hcopy & _ & Hshort & _).
    exists entry. split; [apply Hshort; cbn; lia |].
    destruct Hcopy as (_ & _ & _ & Href & Hone & _); [vm_compute; discriminate |].
    split; [exact Href |]. apply Hone. vm_compute. reflexivity.
  - destruct (history_entry_direct_or_transformed inStep 1%nat
                inStep_bufferAllocated) as (entry & Hdirect & _ & _ & Hshort & _).
    rewrite Hshort by (cbn; lia). rewrite Hdirect; [reflexivity |].
    vm_compute. reflexivity.
Defined.

(** With 23 messages buffered and message 21 below the reported minimum
    22, the pass runs and only message 23 is left.  With two messages
    buffered it does not run. *)
Lemma compaction_after_append_witness :
  processMergeTreeMsg busy 22%nat
  = processMinSequenceNumberChanged (processMergeTreeMsg_stash busy 22%nat).1 22
  ∧ sequenceNumber <$> historyBuffer (processMergeTreeMsg busy 22%nat) = [23]
  ∧ processMergeTreeMsg inStep 1%nat = (processMergeTreeMsg_stash inStep 1%nat).1.
Proof.
  destruct (compaction_after_append busy 22%nat busy_bufferAllocated)
    as (Hdue & _ & _).
  destruct (compaction_after_append inStep 1%nat inStep_bufferAllocated)
    as (_ & Hnot & _).
  split; [| split; [vm_compute; reflexivity |]].
  - apply Hdue. split.
    + vm_compute. lia.
    + eexists. split; vm_compute; reflexivity.
  - apply Hnot. intros [Hlen _]. vm_compute in Hlen. lia.
Defined.

Lemma loadedCatchingUp_bufferAllocated : bufferAllocated loadedCatchingUp.
Proof. unfold bufferAllocated. cbn. repeat constructor. Qed.

Lemma loadedCatchingUp_increasing : increasing loadedCatchingUp.
Proof. unfold increasing. cbn. repeat constructor. Qed.

(** Message 7 arrives in order on a buffer above watermark 3; a snapshot
    taken at minimum sequence number 6 leaves nothing at or below 6. *)
Lemma history_buffer_above_watermark_witness :
  aboveWatermark 5 (processMinSequenceNumberChanged catchingUp 5)
  ∧ increasing (processMergeTreeMsg catchingUp 1%nat)
  ∧ aboveWatermark 3 (processMergeTreeMsg catchingUp 1%nat)
  ∧ aboveWatermark 6
      (snapshotMergeTree loadedCatchingUp
         (Some {| dm_minimumSequenceNumber := 6; dm_referenceSequenceNumber := 7 |})).1.
Proof.
  destruct (history_buffer_above_watermark catchingUp
              catchingUp_bufferAllocated catchingUp_increasing)
    as (Hgc & Hmsg & _).
  destruct (history_buffer_above_watermark loadedCatchingUp
              loadedCatchingUp_bufferAllocated loadedCatchingUp_increasing)
    as (_ & _ & Hsnap).
  split; [apply (Hgc 5) |].
  assert (aboveWatermark 3 catchingUp) as Habove.
  { unfold aboveWatermark. cbn. repeat constructor. }
  destruct (Hmsg 3 1%nat Habove) as (Hinc & _ & Hkeep & _).
  { cbn. repeat constructor. }
  { vm_compute. reflexivity. }
  split; [exact Hinc |]. split; [exact Hkeep |].
  assert (aboveWatermark 3 loadedCatchingUp) as Habove'.
  { unfold aboveWatermark. cbn. repeat constructor. }
  destruct (Hsnap 3 (Some {| dm_minimumSequenceNumber := 6;
                             dm_referenceSequenceNumber := 7 |}) Habove')
    as (_ & _ & _ & Hnew).
  by apply (Hnew _ eq_refl eq_refl).
Defined.


Lemma localRefToPos_anchored_or_sentinel_witness :
  localRefToPos fresh {| lref_segment := Some (boldSegment 4); lref_offset := 2 |} = 12
  ∧ localRefToPos fresh {| lref_segment := None; lref_offset := 2 |} = -1.
Proof.
  split.
  - rewrite (proj1 (localRefToPos_anchored_or_sentinel fresh
                      {| lref_segment := Some (boldSegment 4); lref_offset := 2 |})
               (boldSegment 4) eq_refl).
    reflexivity.
  - apply (proj2 (localRefToPos_anchored_or_sentinel fresh
                    {| lref_segment := None; lref_offset := 2 |})).
    reflexivity.
Defined.

(** After an unrelated range at 10, two adjacent bold ranges, [0,2) and
    [2,5), become one op over [0,5); a later range at 9 adds another.
    Alone they give exactly one op. *)
Lemma annotate_coalescing_is_in_createOpsFromDelta_witness :
  createOpsFromDelta (Client := CollaborationClient ScriptedStore)
    {| deltaOperation := ANNOTATE;
       ranges := [boldRange 10 1; boldRange 0 2] ++ [boldRange 2 3] |}
  = [Annotate 10 11 bold None] ++ [Annotate 0 5 bold None]
  ∧ (length
       (createOpsFromDelta (Client := CollaborationClient ScriptedStore)
          {| deltaOperation := ANNOTATE;
             ranges := [boldRange 10 1] ++ [boldRange 0 2; boldRange 2 3]
                       ++ [boldRange 9 1] |})
     < 4)%nat
  ∧ createOpsFromDelta (Client := CollaborationClient ScriptedStore)
      {| deltaOperation := ANNOTATE; ranges := [boldRange 0 2; boldRange 2 3] |}
    = [Annotate 0 5 bold None].
Proof.
  destruct (annotate_coalescing_is_in_createOpsFromDelta
              (Client := CollaborationClient ScriptedStore) (Kernel := unit))
    as (Hextend & _ & Hpair & Htwo & _).
  split; [| split].
  - apply (Hextend [boldRange 10 1; boldRange 0 2] (boldRange 2 3)
             [Annotate 10 11 bold None] 0 2 bold None).
    + vm_compute. reflexivity.
    + reflexivity.
    + vm_compute. reflexivity.
  - apply (Hpair [boldRange 10 1] [boldRange 9 1] (boldRange 0 2) (boldRange 2 3)).
    + intros a b c Hab Hbc. cbn in *. unfold spec_matchProperties in *.
      apply bool_decide_eq_true in Hab, Hbc. apply bool_decide_eq_true. congruence.
    + reflexivity.
    + vm_compute. reflexivity.
  - apply (Htwo (boldRange 0 2) (boldRange 2 3)).
    + reflexivity.
    + vm_compute. reflexivity.
Defined.

(** Two adjacent [annotateRange] calls with the same properties hand two
    ops to the transport, not one op over the combined range. *)
Lemma annotateRange_submits_each_op :
  submitted (annotateRange (annotateRange fresh 0 2 bold None) 2 5 bold None)
  = [Annotate 0 2 bold None; Annotate 2 5 bold None]
  ∧ submitted (annotateRange (annotateRange fresh 0 2 bold None) 2 5 bold None)
    ≠ [Annotate 0 5 bold None].
Proof. split; [vm_compute; reflexivity | vm_compute; discriminate]. Qed.

Lemma removeRange_empty_range_is_noop_witness :
  removeRange fresh 4 4 = (fresh, None).
Proof.
  destruct (removeRange_empty_range_is_noop fresh 4 4 eq_refl) as (Hop & _ & Hsame).
  destruct (removeRange fresh 4 4) as [this' op]. cbn in *. by subst.
Defined.

(** The sample client has minimum sequence number 3. *)
Lemma resolveRemoteClientPosition_gc_safety_witness :
  (∃ localPosition, resolveRemoteClientPosition fresh 8 3 "B" = Some localPosition)
  ∧ resolveRemoteClientPosition fresh 8 2 "B" = None.
Proof.
  split.
  - apply (proj1 (resolveRemoteClientPosition_gc_safety fresh 8 3 "B")).
    vm_compute. discriminate.
  - apply (proj2 (resolveRemoteClientPosition_gc_safety fresh 8 2 "B")).
    vm_compute. reflexivity.
Defined.

(** C6 (the code departs from it). When the header blob cannot be read,
    [loadCore] ends with its own promise rejected and the readiness
    promise [loadedDeferred] still pending: nothing was resolved or
    rejected, no error event was logged.  When instead the content
    chunks cannot be read, the same cause does reject the readiness
    promise. *)
Theorem loadCore_unreadable_header_leaves_loaded_pending :
  loadCore fresh "main" unreadableHeader = (fresh, Throw (JObj "ReadError"))
  ∧ loadedDeferred (loadCore fresh "main" unreadableHeader).1 = Pending
  ∧ errorEvents (loadCore fresh "main" unreadableHeader).1 = []
  ∧ loadedDeferred (loadCore fresh "main" unreadableContent).1
    = Rejected (JObj "ReadError").
Proof. repeat split; vm_compute; reflexivity. Qed.

End Samples.

(* ===================================================================== *)
(** * DeltaQueueProxy over runs of calls                                  *)
(* ===================================================================== *)

Section DeltaQueueProxyRuns.

Import DeltaQueueProxy.

Lemma run_app (this : t) (cs1 cs2 : list Call) :
  run this (cs1 ++ cs2)
  = ((run (run this cs1).1 cs2).1, (run this cs1).2 ++ (run (run this cs1).1 cs2).2).
Proof.
  revert this. induction cs1 as [| c cs1 IH]; intros this; cbn.
  - by destruct (run this cs2).
  - destruct (step this c) as [this1 log1]. rewrite IH.
    destruct (run this1 cs1) as [this2 log2]. cbn.
    by rewrite app_assoc.
Qed.

Lemma step_agrees (this : t) (c : Call) (log : list QueueCall) :
  agrees this log → agrees (step this c).1 (log ++ (step this c).2).
Proof.
  destruct this as [s l]. unfold agrees. cbn. intros [Hheld Hfree].
  destruct c; cbn.
  - rewrite last_snoc. split; [done | by destruct l].
  - rewrite last_snoc. split; [done | by rewrite orb_true_r].
  - unfold systemResume, updateResume; cbn. destruct l; cbn.
    + rewrite app_nil_r. split; [| done]. intros _. apply Hheld. by rewrite orb_true_r.
    + rewrite last_snoc. split; [done | intros _; discriminate].
  - unfold resume, updateResume; cbn. destruct s; cbn.
    + rewrite app_nil_r. split; [| done]. intros _. by apply Hheld.
    + rewrite last_snoc. split; [done | intros _; discriminate].
Qed.

Lemma run_agrees (cs : list Call) : ∀ (this : t) (log : list QueueCall),
  agrees this log → agrees (run this cs).1 (log ++ (run this cs).2).
Proof.
  induction cs as [| c cs IH]; intros this log Hagree; cbn.
  - by rewrite app_nil_r.
  - pose proof (step_agrees this c log Hagree) as Hstep.
    destruct (step this c) as [this1 log1]. cbn in Hstep.
    specialize (IH this1 (log ++ log1) Hstep).
    destruct (run this1 cs) as [this2 log2]. cbn in *.
    by rewrite app_assoc.
Qed.

(** X1. Starting from a new proxy, after any calls the last thing the
    wrapped queue was told is [pause()] exactly when [systemPaused] or
    [localPaused] is still set. *)
Theorem queue_told_pause_while_held (cs : list Call) :
  agrees (run new cs).1 (run new cs).2.
Proof.
  apply (run_agrees cs new []). split; [discriminate | done].
Qed.

(** X2. Whatever was called before, once both callers have resumed, in
    either order, both flags are clear and the last call on the wrapped
    queue is [resume()]. *)
Theorem both_resumes_release (this : t) (cs : list Call) :
  bothClear (run this (cs ++ [SystemResume; Resume])).1
  ∧ last (run this (cs ++ [SystemResume; Resume])).2 = Some QResume
  ∧ bothClear (run this (cs ++ [Resume; SystemResume])).1
  ∧ last (run this (cs ++ [Resume; SystemResume])).2 = Some QResume.
Proof.
  rewrite !run_app. destruct (run this cs) as [[s l] log]. cbn.
  unfold systemResume, resume, updateResume, bothClear; cbn.
  destruct s, l; cbn; repeat split; try reflexivity;
    by rewrite last_app.
Qed.

Lemma pauses_app log1 log2 : pauses (log1 ++ log2) = (pauses log1 + pauses log2)%nat.
Proof. unfold pauses. by rewrite filter_app, length_app. Qed.

Lemma resumes_app log1 log2 : resumes (log1 ++ log2) = (resumes log1 + resumes log2)%nat.
Proof. unfold resumes. by rewrite filter_app, length_app. Qed.

Lemma pauses_resumes_single :
  pauses [QPause] = 1%nat ∧ resumes [QPause] = 0%nat
  ∧ pauses [QResume] = 0%nat ∧ resumes [QResume] = 1%nat
  ∧ pauses [] = 0%nat ∧ resumes [] = 0%nat.
Proof. repeat split; reflexivity. Qed.

(** X3. Every [pause()] and [systemPause()] is passed on to the wrapped
    queue, one call each; [resume()] is invoked on it at most once per
    [resume()] or [systemResume()]. *)
Theorem pause_requests_all_reach_the_queue (this : t) (cs : list Call) :
  pauses (run this cs).2 = length (filter (λ c, isPauseRequest c) cs)
  ∧ (resumes (run this cs).2 ≤ length (filter (λ c, isResumeRequest c) cs))%nat.
Proof.
  destruct pauses_resumes_single as (Hpp & Hrp & Hpr & Hrr & Hpn & Hrn).
  revert this. induction cs as [| c cs IH]; intros this; [done |].
  cbn [run]. destruct (step this c) as [this1 log1] eqn:Hstep.
  specialize (IH this1). destruct (run this1 cs) as [this2 log2]. cbn [snd] in *.
  rewrite pauses_app, resumes_app.
  destruct IH as [IHp IHr].
  destruct this as [s l], c; cbn in Hstep;
    unfold systemResume, resume, updateResume in Hstep; cbn in Hstep.
  - injection Hstep as <- <-.
    rewrite filter_cons_True, filter_cons_False by (cbn; tauto).
    rewrite Hpp, Hrp. cbn [length]. lia.
  - injection Hstep as <- <-.
    rewrite filter_cons_True, filter_cons_False by (cbn; tauto).
    rewrite Hpp, Hrp. cbn [length]. lia.
  - rewrite filter_cons_False, filter_cons_True by (cbn; tauto).
    destruct l; cbn in Hstep; injection Hstep as <- <-;
      rewrite ?Hpr, ?Hrr, ?Hpn, ?Hrn; cbn [length]; lia.
  - rewrite filter_cons_False, filter_cons_True by (cbn; tauto).
    destruct s; cbn in Hstep; injection Hstep as <- <-;
      rewrite ?Hpr, ?Hrr, ?Hpn, ?Hrn; cbn [length]; lia.
Qed.

End DeltaQueueProxyRuns.

(* ===================================================================== *)
(** * Compaction, snapshots, loading and readiness                        *)
(* ===================================================================== *)

Section HistoryBufferAndLoading.

Import Sequence.

Context {Client Kernel : Type}.
Context `{!MergeTreeClient Client, !MapKernel Kernel, !Helpers}.
Implicit Types this : SharedSegmentSequence Client Kernel.

Lemma processMinSequenceNumberChanged_drop this minSeq :
  processMinSequenceNumberChanged this minSeq
  = set_messagesSinceMSNChange this
      (drop (scanIndex (objects this) minSeq (messagesSinceMSNChange this))
         (messagesSinceMSNChange this)).
Proof.
  unfold processMinSequenceNumberChanged.
  destruct (scanIndex _ _ _) as [| n]; cbn; [by destruct this | done].
Qed.

Lemma scanIndex_compose h m1 m2 buffer :
  drop (scanIndex h m2 (drop (scanIndex h m1 buffer) buffer))
    (drop (scanIndex h m1 buffer) buffer)
  = drop (scanIndex h (Z.max m1 m2) buffer) buffer.
Proof.
  induction buffer as [| r rest IH]; [done |].
  cbn [scanIndex].
  destruct (sequenceNumber (deref h r) >? m1) eqn:H1;
    destruct (sequenceNumber (deref h r) >? Z.max m1 m2) eqn:Hmax;
    cbn [drop scanIndex].
  - replace (sequenceNumber (deref h r) >? m2) with true by lia. done.
  - replace (sequenceNumber (deref h r) >? m2) with false by lia.
    cbn [drop]. replace (Z.max m1 m2) with m2 by lia. done.
  - lia.
  - apply IH.
Qed.

(** X4. Two compaction passes in a row amount to one pass at the larger
    minimum sequence number; in particular a pass repeated changes
    nothing. *)
Theorem compaction_passes_compose this (m1 m2 : Z) :
  processMinSequenceNumberChanged (processMinSequenceNumberChanged this m1) m2
  = processMinSequenceNumberChanged this (Z.max m1 m2).
Proof.
  rewrite !processMinSequenceNumberChanged_drop. cbn.
  by rewrite scanIndex_compose.
Qed.

Lemma filter_all {A} (P : A → Prop) `{!∀ x, Decision (P x)} (l : list A) :
  Forall P l → filter P l = l.
Proof.
  induction 1 as [| x l Hx _ IH]; [done |].
  by rewrite filter_cons_True, IH.
Qed.

Lemma firstAbove_filter minSeq msgs :
  StronglySorted Z.lt (sequenceNumber <$> msgs) →
  drop (firstAbove minSeq msgs) msgs = filter (λ m, minSeq < sequenceNumber m) msgs.
Proof.
  induction msgs as [| m rest IH]; [done |].
  intros Hs. pose proof (firstAbove_drop minSeq _ Hs) as Hall.
  apply StronglySorted_cons in Hs as [Hhd Hrest].
  cbn [firstAbove] in *. destruct (sequenceNumber m >? minSeq) eqn:Hgt; cbn [drop] in *.
  - symmetry. by apply filter_all.
  - rewrite filter_cons_False by lia. by apply IH.
Qed.

(** X5. On a buffer in increasing sequence-number order, a compaction
    pass keeps exactly the messages whose sequence number is above
    [minSeq], in their order. *)
Theorem compaction_keeps_exactly_the_newer this (minSeq : Z) :
  increasing this →
  historyBuffer (processMinSequenceNumberChanged this minSeq)
  = filter (λ m, minSeq < sequenceNumber m) (historyBuffer this).
Proof.
  intros Hs. rewrite historyBuffer_processMinSequenceNumberChanged.
  by apply firstAbove_filter.
Qed.

(** What the stamping loop leaves in each object. *)
Lemma deref_stampMinimumSequenceNumber buffer : ∀ h minSeq r,
  deref (stampMinimumSequenceNumber h buffer minSeq) r
  = if bool_decide (r ∈ buffer)
    then set_minimumSequenceNumber (deref h r) minSeq
    else deref h r.
Proof.
  unfold stampMinimumSequenceNumber.
  induction buffer as [| m buffer IH]; intros h minSeq r; [done |].
  cbn [foldl]. rewrite IH.
  destruct (decide (r = m)) as [-> | Hne].
  - rewrite deref_write_eq.
    rewrite (bool_decide_eq_true_2 (m ∈ m :: buffer)) by apply list_elem_of_here.
    by destruct (bool_decide (m ∈ buffer)).
  - rewrite deref_write_ne by done.
    destruct (decide (r ∈ buffer)) as [Hin | Hnin].
    + rewrite !bool_decide_eq_true_2; [done | by apply list_elem_of_further | done].
    + rewrite !bool_decide_eq_false_2; [done | | done].
      intros Hin. apply elem_of_cons in Hin as [? | ?]; done.
Qed.

(** X6. When [snapshotMergeTree] returns a snapshot, every buffered
    message carries the snapshot's minimum sequence number (0 without a
    delta manager); objects outside the buffer are untouched, no other
    field of any message changed, and the snapshotter was given the
    buffer as stamped. *)
Theorem snapshot_stamps_the_buffer this (deltaManager : option IDeltaManager)
    this' (mtSnap : JsVal) :
  snapshotMergeTree this deltaManager = (this', Normal mtSnap) →
  let minSeq := match deltaManager with
                | Some dm => dm_minimumSequenceNumber dm
                | None => 0
                end in
  Forall (λ m, minimumSequenceNumber m = minSeq) (historyBuffer this')
  ∧ (∀ r, r ∉ messagesSinceMSNChange this' →
          deref (objects this') r = deref (objects this) r)
  ∧ (∀ r, set_minimumSequenceNumber (deref (objects this') r) minSeq
          = set_minimumSequenceNumber (deref (objects this) r) minSeq)
  ∧ mtSnap = snapshotter_emit (client this') (historyBuffer this').
Proof.
  unfold snapshotMergeTree.
  destruct (isLoaded this); cbn [negb]; [| discriminate].
  destruct deltaManager as [dm |].
  - destruct (negb (_ =? _)); [discriminate |].
    intros [= <- <-]. cbn zeta.
    unfold historyBuffer.
    cbn [objects messagesSinceMSNChange set_objects set_client client].
    rewrite objects_processMinSequenceNumberChanged.
    repeat split.
    + apply Forall_fmap, Forall_forall. intros r Hr. cbn.
      rewrite deref_stampMinimumSequenceNumber, bool_decide_eq_true_2; done.
    + intros r Hr. rewrite deref_stampMinimumSequenceNumber.
      by rewrite bool_decide_eq_false_2.
    + intros r. rewrite deref_stampMinimumSequenceNumber.
      by destruct (bool_decide _).
  - cbn [negb]. intros [= <- <-]. cbn zeta.
    unfold historyBuffer. cbn [objects messagesSinceMSNChange set_objects client].
    repeat split.
    + apply Forall_fmap, Forall_forall. intros r Hr. cbn.
      rewrite deref_stampMinimumSequenceNumber, bool_decide_eq_true_2; done.
    + intros r Hr. rewrite deref_stampMinimumSequenceNumber.
      by rewrite bool_decide_eq_false_2.
    + intros r. rewrite deref_stampMinimumSequenceNumber.
      by destruct (bool_decide _).
Qed.

(** ** Remote messages and loading *)

Lemma processMergeTreeMsg_frame this rawMessage :
  let this' := processMergeTreeMsg this rawMessage in
  isLoaded this' = isLoaded this
  ∧ loadedDeferred this' = loadedDeferred this
  ∧ submitted this' = submitted this
  ∧ errorEvents this' = errorEvents this
  ∧ intervalMapKernel this' = intervalMapKernel this
  ∧ client this'
    = (applyMsg (client this) (parseHandles (deref (objects this) rawMessage))).1.
Proof.
  cbn zeta. rewrite processMergeTreeMsg_eq. cbn zeta.
  destruct (stash_others this rawMessage) as (Hl & Hd & Hs & Hk & Hc).
  assert (errorEvents (processMergeTreeMsg_stash this rawMessage).1 = errorEvents this)
    as He.
  { unfold processMergeTreeMsg_stash, cloneDeep, alloc, write, deref; cbn.
    rewrite (decide_True (P := next (objects this) = next (objects this))) by done.
    destruct (needsTransformation _); cbn;
      repeat first
        [ rewrite (decide_True (P := next (objects this) = next (objects this))) by done
        | rewrite (decide_False (P := next (objects this) = S (next (objects this))))
            by lia ];
      by destruct (applyMsg _ _) as [c events]. }
  destruct (compactionDue _ _); [rewrite processMinSequenceNumberChanged_drop |];
    cbn [isLoaded loadedDeferred submitted errorEvents intervalMapKernel client
         set_messagesSinceMSNChange];
    by rewrite Hl, Hd, Hs, Hk, Hc, He.
Qed.

Lemma bufferAllocated_processMergeTreeMsg this rawMessage :
  bufferAllocated this → bufferAllocated (processMergeTreeMsg this rawMessage).
Proof.
  intros Halloc. rewrite processMergeTreeMsg_eq. cbn zeta.
  pose proof (bufferAllocated_stash this rawMessage Halloc) as Halloc1.
  destruct (compactionDue _ _); [| done].
  by apply bufferAllocated_processMinSequenceNumberChanged.
Qed.

Lemma sequenceNumbers_processMergeTreeMsg this rawMessage :
  bufferAllocated this →
  (sequenceNumber <$> historyBuffer (processMergeTreeMsg this rawMessage))
    `suffix_of`
  (sequenceNumber <$> historyBuffer this)
    ++ [sequenceNumber (parseHandles (deref (objects this) rawMessage))].
Proof.
  intros Halloc.
  destruct (historyBuffer_processMergeTreeMsg this rawMessage) as [index ->].
  rewrite historyBuffer_stash by done.
  rewrite fmap_drop, fmap_app. cbn [fmap list_fmap].
  replace (sequenceNumber (if needsTransformation _ then _ else _))
    with (sequenceNumber (parseHandles (deref (objects this) rawMessage)))
    by (by destruct (needsTransformation _)).
  apply suffix_drop.
Qed.

(** Handing a new message object to the sequence. *)
Lemma alloc_keeps_buffer this (m : ISequencedDocumentMessage) :
  bufferAllocated this →
  bufferAllocated (set_objects this (alloc (objects this) m).1)
  ∧ historyBuffer (set_objects this (alloc (objects this) m).1) = historyBuffer this.
Proof.
  intros Halloc. split.
  - unfold bufferAllocated in *. cbn.
    eapply Forall_impl; [exact Halloc |]. intros r Hr. cbn in Hr. lia.
  - unfold historyBuffer. cbn [objects messagesSinceMSNChange set_objects].
    apply Forall_fmap_ext. eapply Forall_impl; [exact Halloc |].
    intros r Hr. cbn beta in Hr. by apply deref_alloc_old.
Qed.

(** With fewer than 20 messages buffered the compaction step is not due. *)
Lemma processMergeTreeMsg_short_buffer this rawMessage :
  (length (messagesSinceMSNChange this) < 20)%nat →
  processMergeTreeMsg this rawMessage = (processMergeTreeMsg_stash this rawMessage).1.
Proof.
  intros Hshort. rewrite processMergeTreeMsg_eq. cbn zeta.
  unfold compactionDue. rewrite stash_buffer, length_app. cbn [length].
  replace (20 <? _)%nat with false; [done |].
  symmetry. apply Nat.ltb_ge. lia.
Qed.

Lemma processLoadedMessages_cons this m msgs :
  processLoadedMessages this (m :: msgs)
  = processLoadedMessages
      (processMergeTreeMsg (set_objects this (alloc (objects this) m).1)
         (next (objects this)))
      msgs.
Proof. reflexivity. Qed.

Lemma processLoadedMessages_replay msgs : ∀ this,
  bufferAllocated this →
  let this' := processLoadedMessages this msgs in
  bufferAllocated this'
  ∧ (sequenceNumber <$> historyBuffer this')
      `suffix_of`
    (sequenceNumber <$> historyBuffer this)
      ++ (sequenceNumber <$> (parseHandles <$> msgs))
  ∧ client this' = foldl (λ c m, (applyMsg c (parseHandles m)).1) (client this) msgs
  ∧ isLoaded this' = isLoaded this
  ∧ loadedDeferred this' = loadedDeferred this
  ∧ submitted this' = submitted this
  ∧ errorEvents this' = errorEvents this
  ∧ intervalMapKernel this' = intervalMapKernel this.
Proof.
  induction msgs as [| m msgs IH]; intros this Halloc; cbn zeta.
  - cbn [processLoadedMessages foldl fmap list_fmap]. rewrite app_nil_r. done.
  - rewrite processLoadedMessages_cons.
    set (thisA := set_objects this (alloc (objects this) m).1).
    destruct (alloc_keeps_buffer this m Halloc) as [HallocA HbufA].
    fold thisA in HallocA, HbufA.
    pose proof (bufferAllocated_processMergeTreeMsg thisA (next (objects this)) HallocA)
      as Halloc1.
    pose proof (sequenceNumbers_processMergeTreeMsg thisA (next (objects this)) HallocA)
      as Hseq1.
    pose proof (processMergeTreeMsg_frame thisA (next (objects this)))
      as (Hl & Hd & Hs & He & Hk & Hc).
    assert (deref (objects thisA) (next (objects this)) = m) as Hm.
    { unfold thisA. cbn [objects set_objects]. apply deref_alloc_new. }
    rewrite Hm in Hseq1, Hc. rewrite HbufA in Hseq1.
    destruct (IH _ Halloc1) as (Halloc' & Hseq' & Hc' & Hl' & Hd' & Hs' & He' & Hk').
    split; [done |]. split.
    + etrans; [exact Hseq' |]. cbn [fmap list_fmap].
      rewrite (cons_middle _ (sequenceNumber <$> historyBuffer this)), app_assoc.
      by apply suffix_app.
    + rewrite Hc', Hl', Hd', Hs', He', Hk', Hc, Hl, Hd, Hs, He, Hk. done.
Qed.

(** X8. Processing a remote message submits nothing, logs nothing and
    leaves readiness alone; the client is the one [applyMsg] returned for
    the parsed message; every message object that existed before is
    unchanged, new objects are allocated, and the buffer grows by at most
    one. *)
Theorem remote_processing_is_local this (rawMessage : ref) :
  let this' := processMergeTreeMsg this rawMessage in
  submitted this' = submitted this
  ∧ errorEvents this' = errorEvents this
  ∧ isLoaded this' = isLoaded this
  ∧ loadedDeferred this' = loadedDeferred this
  ∧ client this'
    = (applyMsg (client this) (parseHandles (deref (objects this) rawMessage))).1
  ∧ (∀ r, (r < next (objects this))%nat →
          deref (objects this') r = deref (objects this) r)
  ∧ (next (objects this) < next (objects this'))%nat
  ∧ (length (messagesSinceMSNChange this')
     ≤ S (length (messagesSinceMSNChange this)))%nat.
Proof.
  cbn zeta.
  destruct (processMergeTreeMsg_frame this rawMessage) as (Hl & Hd & Hs & He & _ & Hc).
  repeat split; try done.
  - intros r Hr. rewrite processMergeTreeMsg_eq. cbn zeta.
    destruct (compactionDue _ _);
      rewrite ?objects_processMinSequenceNumberChanged; by apply stash_old.
  - rewrite processMergeTreeMsg_eq. cbn zeta.
    destruct (compactionDue _ _);
      rewrite ?objects_processMinSequenceNumberChanged, stash_next;
      destruct (needsTransformation _); lia.
  - rewrite processMergeTreeMsg_eq. cbn zeta.
    destruct (compactionDue _ _).
    + rewrite processMinSequenceNumberChanged_drop. cbn [messagesSinceMSNChange
        set_messagesSinceMSNChange].
      rewrite length_drop, stash_buffer, length_app. cbn. lia.
    + rewrite stash_buffer, length_app. cbn. lia.
Qed.

Lemma loadFinished_fields this error :
  let this' := loadFinished this error in
  messagesSinceMSNChange this' = messagesSinceMSNChange this
  ∧ objects this' = objects this
  ∧ client this' = client this
  ∧ submitted this' = submitted this
  ∧ intervalMapKernel this' = attachCollections (intervalMapKernel this)
  ∧ isLoaded this' = (if truthy error then isLoaded this else true)
  ∧ errorEvents this'
    = (if truthy error then errorEvents this ++ [error] else errorEvents this).
Proof. cbn zeta. unfold loadFinished. by destruct (truthy error). Qed.

(** While the buffer stays short, replaying keeps every message. *)
Lemma processLoadedMessages_short msgs : ∀ this,
  bufferAllocated this →
  (length (messagesSinceMSNChange this) + length msgs ≤ 20)%nat →
  sequenceNumber <$> historyBuffer (processLoadedMessages this msgs)
  = (sequenceNumber <$> historyBuffer this)
    ++ (sequenceNumber <$> (parseHandles <$> msgs)).
Proof.
  induction msgs as [| m msgs IH]; intros this Halloc Hshort.
  - cbn [processLoadedMessages foldl fmap list_fmap]. by rewrite app_nil_r.
  - rewrite processLoadedMessages_cons.
    set (thisA := set_objects this (alloc (objects this) m).1).
    destruct (alloc_keeps_buffer this m Halloc) as [HallocA HbufA].
    fold thisA in HallocA, HbufA.
    assert (deref (objects thisA) (next (objects this)) = m) as Hm.
    { unfold thisA. cbn [objects set_objects]. apply deref_alloc_new. }
    cbn [length] in Hshort.
    assert (processMergeTreeMsg thisA (next (objects this))
            = (processMergeTreeMsg_stash thisA (next (objects this))).1) as Hstep.
    { apply processMergeTreeMsg_short_buffer. unfold thisA. cbn. lia. }
    rewrite IH.
    + rewrite Hstep, historyBuffer_stash, HbufA, Hm by done.
      rewrite fmap_app. cbn [fmap list_fmap].
      replace (sequenceNumber (if needsTransformation _ then _ else _))
        with (sequenceNumber (parseHandles m))
        by (by destruct (needsTransformation _)).
      by rewrite <- app_assoc.
    + by apply bufferAllocated_processMergeTreeMsg.
    + rewrite Hstep, stash_buffer, length_app. unfold thisA. cbn. lia.
Qed.
(** X9. When the header is read and parsed and the loader returns
    catch-up messages, [loadCore] resolves, the object is loaded and the
    readiness promise resolved; the client has been given every message,
    parsed, in order; the buffered sequence numbers are a suffix of those
    buffered before followed by the loaded ones, and exactly those while
    no more than 20 messages are involved; nothing was submitted or
    logged. *)
Theorem load_replays_the_catch_up_messages this (branchId : string)
    (storage : IObjectStorageService) (header : string) (kernel : Kernel)
    (c : Client) (msgs : list ISequencedDocumentMessage) :
  storage snapshotFileName = Normal header →
  populate (intervalMapKernel this)
    (if truthy (JStr header) then Some (fromBase64ToUtf8 header) else None)
  = Normal kernel →
  loader_initialize (client this) branchId (ContentObjectStorage storage)
  = Normal (c, msgs) →
  bufferAllocated this →
  let this' := (loadCore this branchId storage).1 in
  (loadCore this branchId storage).2 = Normal ()
  ∧ isLoaded this' = true
  ∧ loadedDeferred this' = Deferred_resolve (loadedDeferred this)
  ∧ client this' = foldl (λ c m, (applyMsg c (parseHandles m)).1) c msgs
  ∧ (sequenceNumber <$> historyBuffer this')
      `suffix_of`
    (sequenceNumber <$> historyBuffer this)
      ++ (sequenceNumber <$> (parseHandles <$> msgs))
  ∧ ((length (messagesSinceMSNChange this) + length msgs ≤ 20)%nat →
       sequenceNumber <$> historyBuffer this'
       = (sequenceNumber <$> historyBuffer this)
         ++ (sequenceNumber <$> (parseHandles <$> msgs)))
  ∧ intervalMapKernel this' = attachCollections kernel
  ∧ submitted this' = submitted this
  ∧ errorEvents this' = errorEvents this.
Proof.
  intros Hread Hpop Hinit Halloc. cbn zeta. unfold loadCore.
  rewrite Hread, Hpop.
  cbn [client set_intervalMapKernel]. rewrite Hinit. cbn [fst snd].
  set (this1 := set_client (set_intervalMapKernel this kernel) c).
  assert (bufferAllocated this1) as Halloc1 by exact Halloc.
  destruct (processLoadedMessages_replay msgs this1 Halloc1)
    as (_ & Hseq & Hc & Hl & Hd & Hs & He & Hk).
  destruct (loadFinished_fields (processLoadedMessages this1 msgs) JUndefined)
    as (Hbuf & Hobj & Hc' & Hs' & Hk' & Hl' & He').
  cbn [truthy] in Hl', He'.
  rewrite loadedDeferred_loadFinished. cbn [truthy].
  split; [done |]. split; [done |]. split; [by rewrite Hd |].
  assert (historyBuffer (loadFinished (processLoadedMessages this1 msgs) JUndefined)
          = historyBuffer (processLoadedMessages this1 msgs)) as Hsame
    by (unfold historyBuffer; by rewrite Hbuf, Hobj).
  split; [by rewrite Hc', Hc |]. split; [by rewrite Hsame |]. split.
  - intros Hshort. rewrite Hsame.
    by apply (processLoadedMessages_short msgs this1).
  - by rewrite Hk', Hk, Hs', Hs, He', He.
Qed.

(** X10. Once the header has been read and parsed, [loadCore]'s own
    promise resolves whatever the loader does, and the readiness promise
    is settled afterwards. *)
Theorem loader_failures_do_not_escape this (branchId : string)
    (storage : IObjectStorageService) (header : string) (kernel : Kernel) :
  storage snapshotFileName = Normal header →
  populate (intervalMapKernel this)
    (if truthy (JStr header) then Some (fromBase64ToUtf8 header) else None)
  = Normal kernel →
  (loadCore this branchId storage).2 = Normal ()
  ∧ loadedDeferred (loadCore this branchId storage).1 ≠ Pending.
Proof.
  intros Hread Hpop. unfold loadCore. rewrite Hread, Hpop.
  destruct (loader_initialize _ _ _) as [[c msgs] | error]; cbn [fst snd];
    (split; [done |]); rewrite loadedDeferred_loadFinished.
  - cbn [truthy]. by destruct (loadedDeferred _).
  - destruct (truthy error); by destruct (loadedDeferred _).
Qed.

(** X11. A loader that fails with a falsy reason is taken for a
    success: [loadFinished] tests [if (error)], so the object is marked
    loaded, the readiness promise resolved, no error event logged; the
    buffer is as before. *)
Theorem falsy_rejection_counts_as_loaded this (branchId : string)
    (storage : IObjectStorageService) (header : string) (kernel : Kernel)
    (error : JsVal) :
  storage snapshotFileName = Normal header →
  populate (intervalMapKernel this)
    (if truthy (JStr header) then Some (fromBase64ToUtf8 header) else None)
  = Normal kernel →
  loader_initialize (client this) branchId (ContentObjectStorage storage)
  = Throw error →
  truthy error = false →
  let this' := (loadCore this branchId storage).1 in
  isLoaded this' = true
  ∧ loadedDeferred this' = Deferred_resolve (loadedDeferred this)
  ∧ errorEvents this' = errorEvents this
  ∧ historyBuffer this' = historyBuffer this.
Proof.
  intros Hread Hpop Hinit Hfalsy. cbn zeta. unfold loadCore.
  rewrite Hread, Hpop. cbn [client set_intervalMapKernel]. rewrite Hinit.
  cbn [fst].
  destruct (loadFinished_fields (set_intervalMapKernel this kernel) error)
    as (Hbuf & Hobj & _ & _ & _ & Hl & He).
  rewrite Hfalsy in Hl, He.
  rewrite loadedDeferred_loadFinished, Hfalsy.
  unfold historyBuffer. rewrite Hbuf, Hobj. done.
Qed.

(** ** Readiness *)

Lemma processLoadedMessages_readiness msgs : ∀ this,
  isLoaded (processLoadedMessages this msgs) = isLoaded this
  ∧ loadedDeferred (processLoadedMessages this msgs) = loadedDeferred this.
Proof.
  induction msgs as [| m msgs IH]; intros this; [done |].
  rewrite processLoadedMessages_cons.
  destruct (IH (processMergeTreeMsg (set_objects this (alloc (objects this) m).1)
                  (next (objects this)))) as [-> ->].
  by destruct (processMergeTreeMsg_frame (set_objects this (alloc (objects this) m).1)
                 (next (objects this))) as (-> & -> & _).
Qed.

(** How [loadCore] leaves the flag and the promise: either untouched, or
    as one call of [loadFinished] leaves them. *)
Lemma loadCore_readiness this branchId storage :
  (isLoaded (loadCore this branchId storage).1 = isLoaded this
   ∧ loadedDeferred (loadCore this branchId storage).1 = loadedDeferred this)
  ∨ ∃ error,
      isLoaded (loadCore this branchId storage).1
      = isLoaded (loadFinished this error)
      ∧ loadedDeferred (loadCore this branchId storage).1
        = loadedDeferred (loadFinished this error).
Proof.
  unfold loadCore.
  destruct (storage snapshotFileName) as [header | error]; [| by left].
  destruct (populate _ _) as [kernel | error]; [| by left].
  destruct (loader_initialize _ _ _) as [[c msgs] | error]; cbn [fst].
  - right. exists JUndefined.
    destruct (processLoadedMessages_readiness msgs
                (set_client (set_intervalMapKernel this kernel) c)) as [Hl Hd].
    rewrite !loadedDeferred_loadFinished. cbn [truthy].
    destruct (loadFinished_fields
                (processLoadedMessages
                   (set_client (set_intervalMapKernel this kernel) c) msgs)
                JUndefined) as (_ & _ & _ & _ & _ & -> & _).
    destruct (loadFinished_fields this JUndefined) as (_ & _ & _ & _ & _ & -> & _).
    by rewrite Hd.
  - right. exists error.
    rewrite !loadedDeferred_loadFinished.
    destruct (loadFinished_fields (set_intervalMapKernel this kernel) error)
      as (_ & _ & _ & _ & _ & -> & _).
    by destruct (loadFinished_fields this error) as (_ & _ & _ & _ & _ & -> & _).
Qed.

Lemma local_edits_readiness this start end_ props combiningOp :
  isLoaded (removeRange this start end_).1 = isLoaded this
  ∧ loadedDeferred (removeRange this start end_).1 = loadedDeferred this
  ∧ isLoaded (annotateRange this start end_ props combiningOp) = isLoaded this
  ∧ loadedDeferred (annotateRange this start end_ props combiningOp)
    = loadedDeferred this.
Proof.
  unfold removeRange, annotateRange.
  destruct (removeRangeLocal _ _ _) as [c1 [op1 |]];
    destruct (annotateRangeLocal _ _ _ _ _) as [c2 [op2 |]]; done.
Qed.

Lemma snapshotMergeTree_readiness this deltaManager :
  isLoaded (snapshotMergeTree this deltaManager).1 = isLoaded this
  ∧ loadedDeferred (snapshotMergeTree this deltaManager).1 = loadedDeferred this.
Proof.
  unfold snapshotMergeTree.
  destruct (isLoaded this) eqn:Hl; cbn [negb]; [| done].
  destruct deltaManager as [dm |].
  - rewrite processMinSequenceNumberChanged_drop.
    by destruct (negb (_ =? _)).
  - done.
Qed.

Lemma readinessConsistent_loadFinished this error :
  readinessConsistent this → readinessConsistent (loadFinished this error).
Proof.
  unfold readinessConsistent. intros [Hsettled Hresolved].
  rewrite loadedDeferred_loadFinished.
  destruct (loadFinished_fields this error) as (_ & _ & _ & _ & _ & -> & _).
  destruct (truthy error), (loadedDeferred this), (isLoaded this); cbn;
    split; intros; try done; try (by apply Hresolved); by apply Hsettled.
Qed.

Lemma readinessConsistent_same this this' :
  isLoaded this' = isLoaded this → loadedDeferred this' = loadedDeferred this →
  readinessConsistent this → readinessConsistent this'.
Proof. unfold readinessConsistent. by intros -> ->. Qed.

(** X12. The methods keep [isLoaded] and the readiness promise
    consistent: a loaded object's promise is settled, and a resolved
    promise belongs to a loaded object. *)
Theorem readiness_stays_consistent this :
  readinessConsistent this →
  (∀ error, readinessConsistent (loadFinished this error))
  ∧ readinessConsistent (initializeLocalCore this)
  ∧ (∀ branchId storage, readinessConsistent (loadCore this branchId storage).1)
  ∧ (∀ rawMessage, readinessConsistent (processMergeTreeMsg this rawMessage))
  ∧ (∀ start end_, readinessConsistent (removeRange this start end_).1)
  ∧ (∀ start end_ props combiningOp,
       readinessConsistent (annotateRange this start end_ props combiningOp))
  ∧ (∀ deltaManager, readinessConsistent (snapshotMergeTree this deltaManager).1).
Proof.
  intros Hrc.
  refine (conj _ (conj _ (conj _ (conj _ (conj _ (conj _ _)))))).
  - intros error. by apply readinessConsistent_loadFinished.
  - by apply readinessConsistent_loadFinished.
  - intros branchId storage.
    destruct (loadCore_readiness this branchId storage)
      as [[Hl Hd] | (error & Hl & Hd)].
    + by apply (readinessConsistent_same this).
    + apply (readinessConsistent_same (loadFinished this error)); [done | done |].
      by apply readinessConsistent_loadFinished.
  - intros rawMessage.
    destruct (processMergeTreeMsg_frame this rawMessage) as (Hl & Hd & _).
    by apply (readinessConsistent_same this).
  - intros start end_.
    destruct (local_edits_readiness this start end_ ∅ None) as (Hl & Hd & _).
    by apply (readinessConsistent_same this).
  - intros start end_ props combiningOp.
    destruct (local_edits_readiness this start end_ props combiningOp)
      as (_ & _ & Hl & Hd).
    by apply (readinessConsistent_same this).
  - intros deltaManager.
    destruct (snapshotMergeTree_readiness this deltaManager) as [Hl Hd].
    by apply (readinessConsistent_same this).
Qed.

(** X13. Once the readiness promise is settled, no later
    [loadFinished], [initializeLocalCore] or [loadCore] changes its
    outcome. *)
Theorem readiness_settles_once this :
  loadedDeferred this ≠ Pending →
  (∀ error, loadedDeferred (loadFinished this error) = loadedDeferred this)
  ∧ loadedDeferred (initializeLocalCore this) = loadedDeferred this
  ∧ (∀ branchId storage,
       loadedDeferred (loadCore this branchId storage).1 = loadedDeferred this).
Proof.
  intros Hsettled.
  assert (∀ error, loadedDeferred (loadFinished this error) = loadedDeferred this)
    as Hfinished.
  { intros error. rewrite loadedDeferred_loadFinished.
    destruct (truthy error); by destruct (loadedDeferred this). }
  split; [done |]. split; [apply Hfinished |].
  intros branchId storage.
  destruct (loadCore_readiness this branchId storage)
    as [[_ Hd] | (error & _ & Hd)]; [done |].
  by rewrite Hd.
Qed.

(** ** What reaches the transport *)

Lemma processLoadedMessages_submitted msgs : ∀ this,
  submitted (processLoadedMessages this msgs) = submitted this.
Proof.
  induction msgs as [| m msgs IH]; intros this; [done |].
  rewrite processLoadedMessages_cons, IH.
  by destruct (processMergeTreeMsg_frame (set_objects this (alloc (objects this) m).1)
                 (next (objects this))) as (_ & _ & -> & _).
Qed.

Lemma submitted_loadCore this branchId storage :
  submitted (loadCore this branchId storage).1 = submitted this.
Proof.
  unfold loadCore.
  destruct (storage snapshotFileName) as [header | error]; [| done].
  destruct (populate _ _) as [kernel | error]; [| done].
  destruct (loader_initialize _ _ _) as [[c msgs] | error]; cbn [fst].
  - destruct (loadFinished_fields
                (processLoadedMessages
                   (set_client (set_intervalMapKernel this kernel) c) msgs)
                JUndefined) as (_ & _ & _ & -> & _).
    by rewrite processLoadedMessages_submitted.
  - by destruct (loadFinished_fields (set_intervalMapKernel this kernel) error)
      as (_ & _ & _ & -> & _).
Qed.

Lemma submitted_snapshotMergeTree this deltaManager :
  submitted (snapshotMergeTree this deltaManager).1 = submitted this.
Proof.
  unfold snapshotMergeTree.
  destruct (isLoaded this); cbn [negb]; [| done].
  destruct deltaManager as [dm |]; [| done].
  rewrite processMinSequenceNumberChanged_drop.
  by destruct (negb (_ =? _)).
Qed.

(** X20. Only local edits hand ops to the transport: [removeRange] and
    [annotateRange] append at most one op and keep what was submitted
    before, [removeRange] returning no op exactly when it submitted
    none; loading, snapshotting, [loadFinished] and compaction submit
    nothing. *)
Theorem only_local_edits_submit this :
  (∀ start end_,
     submitted this `prefix_of` submitted (removeRange this start end_).1
     ∧ (length (submitted (removeRange this start end_).1)
        ≤ S (length (submitted this)))%nat
     ∧ ((removeRange this start end_).2 = None
        ↔ submitted (removeRange this start end_).1 = submitted this))
  ∧ (∀ start end_ props combiningOp,
       submitted this
         `prefix_of` submitted (annotateRange this start end_ props combiningOp)
       ∧ (length (submitted (annotateRange this start end_ props combiningOp))
          ≤ S (length (submitted this)))%nat)
  ∧ (∀ branchId storage, submitted (loadCore this branchId storage).1 = submitted this)
  ∧ (∀ deltaManager, submitted (snapshotMergeTree this deltaManager).1 = submitted this)
  ∧ (∀ error, submitted (loadFinished this error) = submitted this)
  ∧ (∀ minSeq, submitted (processMinSequenceNumberChanged this minSeq) = submitted this).
Proof.
  refine (conj _ (conj _ (conj _ (conj _ (conj _ _))))).
  - intros start end_.
    destruct (removeRange_forwards this start end_) as [-> ->].
    destruct ((removeRangeLocal (client this) start end_).2) as [op |].
    + split; [by apply prefix_app_r |]. rewrite length_app. cbn [length].
      split; [lia |]. split; [done |].
      intros Heq. apply (f_equal length) in Heq. rewrite length_app in Heq.
      cbn in Heq. lia.
    + rewrite app_nil_r. split; [reflexivity |]. split; [lia | done].
  - intros start end_ props combiningOp. rewrite submitted_annotateRange.
    split; [by apply prefix_app_r |]. rewrite length_app.
    destruct ((annotateRangeLocal _ _ _ _ _).2); cbn; lia.
  - apply submitted_loadCore.
  - apply submitted_snapshotMergeTree.
  - intros error. by destruct (loadFinished_fields this error) as (_ & _ & _ & -> & _).
  - intros minSeq. by rewrite processMinSequenceNumberChanged_drop.
Qed.

(** ** Sharing between the buffer and the parsed message *)

Lemma snapshotMergeTree_no_deltaManager this :
  isLoaded this = true →
  objects (snapshotMergeTree this None).1
  = stampMinimumSequenceNumber (objects this) (messagesSinceMSNChange this) 0
  ∧ messagesSinceMSNChange (snapshotMergeTree this None).1
    = messagesSinceMSNChange this
  ∧ ∃ mtSnap, (snapshotMergeTree this None).2 = Normal mtSnap.
Proof.
  intros Hloaded. unfold snapshotMergeTree. rewrite Hloaded. cbn.
  split; [done |]. split; [done |]. by eexists.
Qed.

(** X21. The buffer shares the parsed message object of a direct
    message: a later snapshot, which stamps the buffered messages in
    place, changes that object's [minimumSequenceNumber].  The parsed
    object of a transformed message is not in the buffer and keeps
    its value. *)
Theorem snapshot_writes_through_to_direct_messages this (rawMessage : ref) :
  bufferAllocated this →
  isLoaded this = true →
  (length (messagesSinceMSNChange this) < 20)%nat →
  let message := parseHandles (deref (objects this) rawMessage) in
  let parsed := next (objects this) in
  let this1 := processMergeTreeMsg this rawMessage in
  let this2 := (snapshotMergeTree this1 None).1 in
  (∃ mtSnap, (snapshotMergeTree this1 None).2 = Normal mtSnap)
  ∧ deref (objects this1) parsed = message
  ∧ deref (objects this2) parsed
    = (if needsTransformation message then message
       else set_minimumSequenceNumber message 0).
Proof.
  intros Halloc Hloaded Hshort message parsed this1 this2.
  assert (this1 = (processMergeTreeMsg_stash this rawMessage).1) as Hthis1
    by (by apply processMergeTreeMsg_short_buffer).
  assert (isLoaded this1 = true) as Hloaded1.
  { rewrite Hthis1. by destruct (stash_others this rawMessage) as (-> & _). }
  destruct (snapshotMergeTree_no_deltaManager this1 Hloaded1) as (Hobj & _ & Hok).
  assert (deref (objects this1) parsed = message) as Hparsed
    by (rewrite Hthis1; apply stash_message_object).
  split; [done |]. split; [done |].
  subst this2. rewrite Hobj, deref_stampMinimumSequenceNumber, Hparsed.
  rewrite Hthis1, stash_buffer. fold message parsed.
  assert (parsed ∉ messagesSinceMSNChange this) as Hfresh.
  { intros Hin. unfold bufferAllocated in Halloc.
    eapply Forall_forall in Halloc; [| exact Hin]. cbn in Halloc. unfold parsed in *. lia. }
  destruct (needsTransformation message).
  - rewrite bool_decide_eq_false_2; [done |].
    intros Hin. apply elem_of_app in Hin as [Hin | Hin]; [done |].
    apply list_elem_of_singleton in Hin. unfold parsed in Hin. lia.
  - rewrite bool_decide_eq_true_2; [done |].
    apply elem_of_app. right. apply list_elem_of_here.
Qed.

End HistoryBufferAndLoading.

(* ===================================================================== *)
(** * The ops built from delta events                                     *)
(* ===================================================================== *)

Section OpsFromDeltas.

Import Sequence.

Context {Client : Type} `{!MergeTreeClient Client}.

Lemma opsSpan_app ops1 ops2 : opsSpan (ops1 ++ ops2) = opsSpan ops1 + opsSpan ops2.
Proof.
  unfold opsSpan. induction ops1 as [| op ops1 IH]; cbn; [done |].
  rewrite IH. lia.
Qed.

Lemma createOpsFromDelta_body_span deltaOperation ops r :
  deltaOperation = REMOVE ∨ deltaOperation = ANNOTATE →
  opsSpan (createOpsFromDelta_body deltaOperation ops r)
  = opsSpan ops + cachedLength (segment r).
Proof.
  assert (∀ op, opSpan op = cachedLength (segment r) →
                opsSpan (ops ++ [op]) = opsSpan ops + cachedLength (segment r))
    as Hpush.
  { intros op Hop. rewrite opsSpan_app. cbn. lia. }
  intros [-> | ->]; unfold createOpsFromDelta_body.
  - destruct (ops !! _) as [[| lpos1 lpos2 | |] |] eqn:Hlast;
      try (apply Hpush; cbn; lia).
    destruct (lpos1 =? position r); [| apply Hpush; cbn; lia].
    apply lookup_last_snoc in Hlast as [ops' ->].
    rewrite insert_last_snoc, !opsSpan_app. cbn. lia.
  - destruct (ops !! _) as [[| | lpos1 lpos2 lprops lcombiningOp |] |] eqn:Hlast;
      try (apply Hpush; cbn; lia).
    destruct ((lpos2 =? position r) && _); [| apply Hpush; cbn; lia].
    apply lookup_last_snoc in Hlast as [ops' ->].
    rewrite insert_last_snoc, !opsSpan_app. cbn. lia.
Qed.

(** X14. Coalescing loses no length: for a remove or annotate event the
    ranges of the ops add up to the total length of the reported
    segments. *)
Theorem coalescing_conserves_length (event : SequenceDeltaEvent) :
  deltaOperation event = REMOVE ∨ deltaOperation event = ANNOTATE →
  opsSpan (createOpsFromDelta event) = rangesLength (ranges event).
Proof.
  intros Hkind. unfold createOpsFromDelta.
  assert (∀ rs ops,
            opsSpan (foldl (createOpsFromDelta_body (deltaOperation event)) ops rs)
            = opsSpan ops + rangesLength rs) as Hfold.
  { induction rs as [| r rs IH]; intros ops; cbn [foldl rangesLength foldr]; [lia |].
    rewrite IH, createOpsFromDelta_body_span by done.
    unfold rangesLength. lia. }
  rewrite Hfold. cbn. lia.
Qed.

(** X15. The ops built for an event all have the event's type and are
    at most as many as its ranges; no ranges, or a group event, give no
    ops; an insert event gives one insert op per range, in order. *)
Theorem ops_follow_the_event (event : SequenceDeltaEvent) :
  Forall (λ op, opType op = deltaOperation event) (createOpsFromDelta event)
  ∧ (length (createOpsFromDelta event) ≤ length (ranges event))%nat
  ∧ (ranges event = [] → createOpsFromDelta event = [])
  ∧ (deltaOperation event = GROUP → createOpsFromDelta event = [])
  ∧ (deltaOperation event = INSERT →
       createOpsFromDelta event
       = (λ r, Insert (position r) (toJSONObject (segment r))) <$> ranges event).
Proof.
  split; [apply createOpsFromDelta_opType |].
  unfold createOpsFromDelta. split; [| split; [| split]].
  - assert (∀ rs ops,
              (length (foldl (createOpsFromDelta_body (deltaOperation event)) ops rs)
               ≤ length ops + length rs)%nat) as Hfold.
    { induction rs as [| r rs IH]; intros ops; cbn [foldl length]; [lia |].
      etrans; [apply IH |].
      pose proof (createOpsFromDelta_body_length (deltaOperation event) ops r). lia. }
    apply (Hfold _ []).
  - by intros ->.
  - intros ->. by induction (ranges event).
  - intros ->.
    assert (∀ rs ops,
              foldl (createOpsFromDelta_body INSERT) ops rs
              = ops ++ ((λ r, Insert (position r) (toJSONObject (segment r))) <$> rs))
      as Hfold.
    { induction rs as [| r rs IH]; intros ops; cbn [foldl fmap list_fmap].
      - by rewrite app_nil_r.
      - rewrite IH. cbn. by rewrite <- app_assoc. }
    apply (Hfold _ []).
Qed.

Lemma foldl_insert_lookup (f : string → JsVal) (keys : list string) :
  ∀ (init : gmap string JsVal) (k : string),
    foldl (λ (props : gmap string JsVal) key, <[key := f key]> props) init keys !! k
    = if bool_decide (k ∈ keys) then Some (f k) else init !! k.
Proof.
  induction keys as [| key keys IH]; intros init k; [done |].
  cbn [foldl]. rewrite IH.
  destruct (decide (k ∈ keys)) as [Hin | Hnin].
  - rewrite !bool_decide_eq_true_2; [done | by apply list_elem_of_further | done].
  - rewrite (bool_decide_eq_false_2 (k ∈ keys)) by done.
    destruct (decide (k = key)) as [-> | Hne].
    + rewrite lookup_insert_eq, bool_decide_eq_true_2; [done | apply list_elem_of_here].
    + rewrite lookup_insert_ne by done.
      rewrite bool_decide_eq_false_2; [done |].
      intros Hin. apply elem_of_cons in Hin as [? | ?]; done.
Qed.

(** X16. The properties of a re-expressed annotate op have exactly the
    keys of the range's property deltas, each with the segment's current
    value, or [null] when the segment has none; no value is
    [undefined]. *)
Theorem annotated_props_are_current_or_null (r : ISequenceDeltaRange) (key : string) :
  annotatedProps r !! key
  = match propertyDeltas r !! key with
    | Some _ => Some (currentOrNull (segment r) key)
    | None => None
    end
  ∧ annotatedProps r !! key ≠ Some JUndefined.
Proof.
  assert (annotatedProps r !! key
          = match propertyDeltas r !! key with
            | Some _ => Some (currentOrNull (segment r) key)
            | None => None
            end) as Hlookup.
  { unfold annotatedProps, Object_keys.
    rewrite (foldl_insert_lookup (currentOrNull (segment r))).
    destruct (propertyDeltas r !! key) as [v |] eqn:Hdelta.
    - rewrite bool_decide_eq_true_2; [done |].
      apply list_elem_of_fmap. exists (key, v). split; [done |].
      by apply elem_of_map_to_list.
    - rewrite bool_decide_eq_false_2; [by rewrite lookup_empty |].
      intros Hin. apply list_elem_of_fmap in Hin as ([k v] & -> & Hin).
      apply elem_of_map_to_list in Hin. cbn in Hdelta. congruence. }
  split; [done |]. rewrite Hlookup.
  destruct (propertyDeltas r !! key); [| done].
  unfold currentOrNull. by destruct (properties (segment r) !! key) as [[] |].
Qed.

End OpsFromDeltas.

(* ===================================================================== *)
(** * Paths                                                               *)
(* ===================================================================== *)

Section Paths.

Import Sequence.

(** X17. Different labels get different interval-collection paths. *)
Theorem interval_collection_paths_are_distinct (label1 label2 : string) :
  getIntervalCollectionPath label1 = getIntervalCollectionPath label2 →
  label1 = label2.
Proof.
  unfold getIntervalCollectionPath. intros Heq.
  cbn in Heq. by repeat injection Heq as Heq.
Qed.

(** X18. A read through [ContentObjectStorage] goes to the path under
    [content/], never to the header blob, so its result does not depend
    on the header. *)
Theorem content_storage_stays_in_its_subtree
    (storage storage' : IObjectStorageService) (path : string) :
  (∃ inner, ContentObjectStorage storage path = storage inner
            ∧ inner ≠ snapshotFileName
            ∧ inner = contentPath +:+ "/" +:+ path)
  ∧ ((∀ p, p ≠ snapshotFileName → storage p = storage' p) →
     ContentObjectStorage storage path = ContentObjectStorage storage' path).
Proof.
  split.
  - eexists. split; [reflexivity |]. split; [discriminate | reflexivity].
  - intros Hsame. unfold ContentObjectStorage. apply Hsame. discriminate.
Qed.

End Paths.

(* ===================================================================== *)
(** * Listener wiring                                                     *)
(* ===================================================================== *)

Section ListenerWiring.

Import Sequence.

Lemma listenersOf_onNewListener w event event' :
  listenersOf (onNewListener w event) event' = listenersOf w event'.
Proof.
  unfold onNewListener, listenersOf.
  destruct (String.eqb event "sequenceDelta");
    [by destruct (negb (mergeTreeDeltaCallback w)) |].
  destruct (String.eqb event "maintenance");
    [by destruct (negb (mergeTreeMaintenanceCallback w)) | done].
Qed.

Lemma listenersOf_on w event listener event' :
  listenersOf (on w event listener) event'
  = if decide (event = event') then listenersOf w event ++ [listener]
    else listenersOf w event'.
Proof.
  unfold on. unfold listenersOf at 1. cbn [listeners].
  rewrite lookup_insert. destruct (decide (event = event')) as [-> | Hne].
  - cbn. by rewrite listenersOf_onNewListener.
  - fold (listenersOf (onNewListener w event) event').
    by rewrite listenersOf_onNewListener.
Qed.

Lemma callbacks_on w event listener :
  mergeTreeDeltaCallback (on w event listener)
  = (if String.eqb event "sequenceDelta" then true else mergeTreeDeltaCallback w)
  ∧ mergeTreeMaintenanceCallback (on w event listener)
    = (if String.eqb event "maintenance" then true
       else mergeTreeMaintenanceCallback w).
Proof.
  unfold on, onNewListener. cbn.
  destruct (String.eqb_spec event "sequenceDelta") as [-> | Hsd].
  - cbn. by destruct (mergeTreeDeltaCallback w) eqn:Hcb; cbn; rewrite ?Hcb.
  - destruct (String.eqb_spec event "maintenance") as [-> | Hmt]; [| done].
    by destruct (mergeTreeMaintenanceCallback w) eqn:Hcb; cbn; rewrite ?Hcb.
Qed.

Lemma snoc_not_nil {A} (l : list A) (x : A) : l ++ [x] ≠ [].
Proof. by destruct l. Qed.

Lemma wired_on w event listener : wired w → wired (on w event listener).
Proof.
  unfold wired. intros [Hd Hm].
  destruct (callbacks_on w event listener) as [-> ->].
  rewrite !listenersOf_on.
  destruct (String.eqb_spec event "sequenceDelta") as [-> | Hsd];
    [| destruct (String.eqb_spec event "maintenance") as [-> | Hmt]].
  - rewrite decide_True by done. rewrite decide_False by done.
    cbn [String.eqb Ascii.eqb Bool.eqb]. split; [| exact Hm].
    split; [intros _; apply snoc_not_nil | done].
  - rewrite decide_False by done. rewrite decide_True by done.
    split; [exact Hd |].
    split; [intros _; apply snoc_not_nil | done].
  - rewrite !decide_False by done. by split.
Qed.

Lemma length_dropFirst listener l :
  listener ∈ l → S (length (dropFirst listener l)) = length l.
Proof.
  induction l as [| x l IH]; intros Hin; [by apply not_elem_of_nil in Hin |].
  cbn. destruct (decide (x = listener)) as [-> | Hne]; [done |].
  cbn. f_equal. apply IH. apply elem_of_cons in Hin as [? | ?]; [congruence | done].
Qed.

Lemma length_dropLast listener l :
  listener ∈ l → S (length (dropLast listener l)) = length l.
Proof.
  intros Hin. unfold dropLast. rewrite length_reverse.
  rewrite length_dropFirst by (by apply elem_of_reverse).
  apply length_reverse.
Qed.

Lemma wired_removeListener w event listener :
  wired w → wired (removeListener w event listener).
Proof.
  intros Hw. unfold removeListener.
  destruct (bool_decide (listener ∈ listenersOf w event)) eqn:Hin; [| done].
  apply bool_decide_eq_true in Hin.
  pose proof (length_dropLast listener _ Hin) as Hlen.
  destruct Hw as [Hd Hm]. unfold wired, onRemoveListener, listenerCount.
  set (w1 := {| listeners := _ |}).
  assert (∀ event', listenersOf w1 event'
                    = if decide (event = event')
                      then dropLast listener (listenersOf w event)
                      else listenersOf w event') as Hl1.
  { intros event'. unfold listenersOf at 1, w1. cbn [listeners].
    rewrite lookup_insert. by destruct (decide (event = event')). }
  assert (listenersOf w event ≠ []) as Hne.
  { intros Hnil. rewrite Hnil in Hin. by apply not_elem_of_nil in Hin. }
  destruct (String.eqb_spec event "sequenceDelta") as [-> | Hsd];
    [| destruct (String.eqb_spec event "maintenance") as [-> | Hmt]].
  - destruct (length (listenersOf w1 "sequenceDelta") =? 0)%nat eqn:Hcount.
    + apply Nat.eqb_eq, nil_length_inv in Hcount.
      change (listenersOf {| listeners := listeners w1 |} ?e) with (listenersOf w1 e).
      cbn [mergeTreeDeltaCallback mergeTreeMaintenanceCallback].
      rewrite Hcount. split; [done |].
      rewrite Hl1, decide_False by done. done.
    + apply Nat.eqb_neq in Hcount.
      cbn [mergeTreeDeltaCallback mergeTreeMaintenanceCallback w1].
      split.
      * split; [| intros _; by apply Hd].
        intros _ Hnil. by rewrite Hnil in Hcount.
      * rewrite Hl1, decide_False by done. done.
  - destruct (length (listenersOf w1 "maintenance") =? 0)%nat eqn:Hcount.
    + apply Nat.eqb_eq, nil_length_inv in Hcount.
      change (listenersOf {| listeners := listeners w1 |} ?e) with (listenersOf w1 e).
      cbn [mergeTreeDeltaCallback mergeTreeMaintenanceCallback].
      rewrite Hcount. split; [| done].
      rewrite Hl1, decide_False by done. done.
    + apply Nat.eqb_neq in Hcount.
      cbn [mergeTreeDeltaCallback mergeTreeMaintenanceCallback w1].
      split.
      * rewrite Hl1, decide_False by done. done.
      * split; [| intros _; by apply Hm].
        intros _ Hnil. by rewrite Hnil in Hcount.
  - cbn [mergeTreeDeltaCallback mergeTreeMaintenanceCallback w1].
    rewrite !Hl1, !decide_False by done. done.
Qed.

Lemma listenersOf_onRemoveListener w event event' :
  listenersOf (onRemoveListener w event) event' = listenersOf w event'.
Proof.
  unfold onRemoveListener, listenersOf.
  destruct (String.eqb event "sequenceDelta");
    [by destruct (listenerCount w event =? 0)%nat |].
  destruct (String.eqb event "maintenance");
    [by destruct (listenerCount w event =? 0)%nat | done].
Qed.

Lemma listenersOf_removeListener w event listener :
  listenersOf (removeListener w event listener) event
  = if bool_decide (listener ∈ listenersOf w event)
    then dropLast listener (listenersOf w event)
    else listenersOf w event.
Proof.
  unfold removeListener.
  destruct (bool_decide (listener ∈ listenersOf w event)); [| done].
  rewrite listenersOf_onRemoveListener.
  unfold listenersOf at 1. cbn [listeners]. by rewrite lookup_insert_eq.
Qed.

(** X19. After any [on]/[removeListener] calls on a new object, each
    merge-tree callback is set exactly while its event has a listener;
    adding a [sequenceDelta] listener sets the delta callback, and
    removing the only one clears it. *)
Theorem callbacks_follow_the_listeners (calls : list WiringCall) :
  wired (foldl wire Wiring_new calls)
  ∧ ∀ w listener,
      wired w →
      mergeTreeDeltaCallback (on w "sequenceDelta" listener) = true
      ∧ (listenersOf w "sequenceDelta" = [] →
         mergeTreeDeltaCallback
           (removeListener (on w "sequenceDelta" listener) "sequenceDelta" listener)
         = false).
Proof.
  split.
  - assert (∀ w, wired w → wired (foldl wire w calls)) as Hfold.
    { induction calls as [| c calls IH]; intros w Hw; [done |].
      cbn [foldl]. apply IH. destruct c; cbn.
      - by apply wired_on.
      - by apply wired_removeListener. }
    apply Hfold. by split.
  - intros w listener Hw. split.
    + by destruct (callbacks_on w "sequenceDelta" listener) as [-> _].
    + intros Hnone.
      pose proof (wired_removeListener (on w "sequenceDelta" listener)
                    "sequenceDelta" listener (wired_on _ _ _ Hw)) as [Hd _].
      destruct (mergeTreeDeltaCallback _) eqn:Hcb; [| done].
      exfalso. apply Hd; [done |].
      rewrite listenersOf_removeListener.
      assert (listener ∈ listenersOf (on w "sequenceDelta" listener) "sequenceDelta")
        as Hin.
      { rewrite listenersOf_on, decide_True, Hnone by done. apply list_elem_of_here. }
      rewrite bool_decide_eq_true_2 by done.
      pose proof (length_dropLast listener _ Hin) as Hlen.
      apply nil_length_inv.
      rewrite listenersOf_on, decide_True, Hnone in Hlen |- * by done.
      cbn [app length] in Hlen. cbn [app]. lia.
Qed.

End ListenerWiring.

(* ===================================================================== *)
(** * Further properties at work on sample data                           *)
(* ===================================================================== *)

Section MoreSamples.

Import Sequence Sample.

Lemma compaction_keeps_exactly_the_newer_witness :
  historyBuffer (processMinSequenceNumberChanged catchingUp 5)
  = [msg 6 5 3 (Remove 0 1)]
  ∧ historyBuffer (processMinSequenceNumberChanged catchingUp 6) = [].
Proof.
  split.
  - rewrite (compaction_keeps_exactly_the_newer catchingUp 5 catchingUp_increasing).
    reflexivity.
  - rewrite (compaction_keeps_exactly_the_newer catchingUp 6 catchingUp_increasing).
    reflexivity.
Defined.

(** A snapshot at minimum sequence number 5 stamps message 6. *)
Lemma snapshot_stamps_the_buffer_witness :
  Forall (λ m, minimumSequenceNumber m = 5)
    (historyBuffer
       (snapshotMergeTree loadedCatchingUp
          (Some {| dm_minimumSequenceNumber := 5;
                   dm_referenceSequenceNumber := 7 |})).1).
Proof.
  apply (snapshot_stamps_the_buffer loadedCatchingUp
           (Some {| dm_minimumSequenceNumber := 5; dm_referenceSequenceNumber := 7 |})
           _ (JObj "snapshot")).
  reflexivity.
Defined.

Lemma fresh_bufferAllocated : bufferAllocated fresh.
Proof. constructor. Qed.

(** Loading replays messages 6 and 7: both end up in the buffer, message
    7 in its transformed form, and the client stands at 7. *)
Lemma load_replays_the_catch_up_messages_witness :
  (loadCore freshArchived "main" readable).2 = Normal ()
  ∧ isLoaded (loadCore freshArchived "main" readable).1 = true
  ∧ loadedDeferred (loadCore freshArchived "main" readable).1 = Resolved
  ∧ sequenceNumber <$> historyBuffer (loadCore freshArchived "main" readable).1
    = [6; 7]
  ∧ currentSequenceNumber (client (loadCore freshArchived "main" readable).1) = 7
  ∧ referenceSequenceNumber
    <$> historyBuffer (loadCore freshArchived "main" readable).1 = [5; 6].
Proof.
  destruct (load_replays_the_catch_up_messages freshArchived "main" readable
              "e30=" ()
              (set_store (client freshArchived) (archived ([] :: gapScript)))
              [msg 6 5 3 (Remove 0 1); msg 7 4 3 (Annotate 0 5 bold None)])
    as (Hok & Hloaded & Hresolved & Hclient & _ & Hexact & _);
    [vm_compute; reflexivity .. | constructor |].
  split; [exact Hok |]. split; [exact Hloaded |]. split; [exact Hresolved |].
  split; [apply Hexact; cbn; lia |].
  split; [rewrite Hclient; reflexivity |].
  vm_compute. reflexivity.
Defined.

Lemma loader_failures_do_not_escape_witness :
  (loadCore fresh "main" unreadableContent).2 = Normal ()
  ∧ loadedDeferred (loadCore fresh "main" unreadableContent).1 ≠ Pending.
Proof.
  apply (loader_failures_do_not_escape fresh "main" unreadableContent "e30=" ());
    vm_compute; reflexivity.
Defined.

Lemma falsy_rejection_counts_as_loaded_witness :
  isLoaded (loadCore fresh "main" quietFailure).1 = true
  ∧ loadedDeferred (loadCore fresh "main" quietFailure).1 = Resolved.
Proof.
  destruct (falsy_rejection_counts_as_loaded fresh "main" quietFailure
              "e30=" () JUndefined)
    as (Hloaded & Hresolved & _); [vm_compute; reflexivity .. |].
  split; [exact Hloaded | exact Hresolved].
Defined.

Lemma fresh_readinessConsistent : readinessConsistent fresh.
Proof. split; [discriminate | discriminate]. Qed.

Lemma readiness_stays_consistent_witness :
  readinessConsistent (loadCore fresh "main" unreadableContent).1
  ∧ readinessConsistent (initializeLocalCore fresh).
Proof.
  destruct (readiness_stays_consistent fresh fresh_readinessConsistent)
    as (_ & Hlocal & Hload & _).
  split; [apply Hload | exact Hlocal].
Defined.

(** A load that fails after a local initialization does not reject the
    promise that was resolved. *)
Lemma readiness_settles_once_witness :
  loadedDeferred (loadCore (initializeLocalCore fresh) "main" unreadableContent).1
  = Resolved.
Proof.
  destruct (readiness_settles_once (initializeLocalCore fresh)) as (_ & _ & Hload).
  - vm_compute. discriminate.
  - rewrite Hload. reflexivity.
Defined.

Lemma coalescing_conserves_length_witness :
  opsSpan (createOpsFromDelta (Client := CollaborationClient ScriptedStore) removal) = 6.
Proof.
  rewrite (coalescing_conserves_length (Client := CollaborationClient ScriptedStore)
             removal (or_introl eq_refl)).
  reflexivity.
Defined.

Lemma ops_follow_the_event_witness :
  createOpsFromDelta (Client := CollaborationClient ScriptedStore)
    {| deltaOperation := INSERT; ranges := [boldRange 3 4] |}
  = [Insert 3 (JStr "text")].
Proof.
  destruct (ops_follow_the_event (Client := CollaborationClient ScriptedStore)
              {| deltaOperation := INSERT; ranges := [boldRange 3 4] |})
    as (_ & _ & _ & _ & Hinsert).
  rewrite Hinsert; reflexivity.
Defined.

Lemma interval_collection_paths_are_distinct_witness :
  getIntervalCollectionPath "comments" = "intervalCollections/comments"%string
  ∧ "comments"%string = "comments"%string.
Proof.
  split; [reflexivity |].
  apply (interval_collection_paths_are_distinct "comments" "comments" eq_refl).
Defined.

Lemma content_storage_stays_in_its_subtree_witness :
  ContentObjectStorage unreadableHeader "header"
  = ContentObjectStorage readable "header".
Proof.
  apply (proj2 (content_storage_stays_in_its_subtree unreadableHeader readable "header")).
  intros p Hp. unfold unreadableHeader, readable.
  destruct (String.eqb_spec p "header") as [-> | _]; [by destruct Hp | reflexivity].
Defined.

Lemma callbacks_follow_the_listeners_witness :
  mergeTreeDeltaCallback (on Wiring_new "sequenceDelta" 1%nat) = true
  ∧ mergeTreeDeltaCallback
      (removeListener (on Wiring_new "sequenceDelta" 1%nat) "sequenceDelta" 1%nat)
    = false.
Proof.
  destruct (callbacks_follow_the_listeners []) as [Hnew Hstep].
  destruct (Hstep Wiring_new 1%nat Hnew) as [Hset Hclear].
  split; [exact Hset | apply Hclear; reflexivity].
Defined.

Lemma loadedInStep_bufferAllocated : bufferAllocated loadedInStep.
Proof. unfold bufferAllocated. cbn. repeat constructor. Qed.

(** Message 7 follows message 6 directly: the snapshot's stamp shows in
    the parsed object. *)
Lemma snapshot_writes_through_to_direct_messages_witness :
  deref (objects (processMergeTreeMsg loadedInStep 1%nat)) 2%nat
  = msg 7 6 3 (Remove 2 3)
  ∧ deref (objects (snapshotMergeTree (processMergeTreeMsg loadedInStep 1%nat) None).1)
      2%nat
    = msg 7 6 0 (Remove 2 3).
Proof.
  destruct (snapshot_writes_through_to_direct_messages loadedInStep 1%nat
              loadedInStep_bufferAllocated eq_refl)
    as (_ & Hparsed & Hstamped).
  { cbn. lia. }
  split; [exact Hparsed | exact Hstamped].
Defined.

(** Listeners registered twice are removed one at a time, last first. *)
Example dropLast_removes_one :
  dropLast 1%nat [1; 2; 1; 3]%nat = [1; 2; 3]%nat.
Proof. reflexivity. Qed.

End MoreSamples.
